(** * serpens runtime values: a shallow embedding of [src/runtime/value.{h,cc}]

    The runtime's [Value] is a tagged union with one payload per kind; the
    arithmetic methods dispatch on the kinds of both operands, [iter] hands
    out heap-allocated iterator objects, and every fault goes through
    [error], which prints one diagnostic line and leaves the process.

    The embedding threads an explicit [World] (iterator heap, standard
    output, standard error) through a small outcome monad.  Machine
    integers are [Z] with their wrap-around written out: a signed result
    that leaves its width is reduced modulo 2^w, as the compiled code does
    on two's-complement hardware, and an integer division the processor
    cannot carry out raises its divide exception.  [f64] is Rocq's
    binary64 [float].  The one loop of the source, in [mul], runs on a step
    budget, so that a run that never leaves the loop can be told apart
    from one that returns; its [int] counter is a local that a compiler
    need not keep at 32 bits, so incrementing it past the largest [int]
    is left undefined, as the language has it. *)

From Stdlib Require Import ZArith Floats String Ascii DecimalString Lia.
From stdpp Require Import gmap strings list.

Local Open Scope Z_scope.

(** ** Machine integers ([value.h]: [i32], [i64]; [size_t] from the C++ library) *)

Module Int.

(** Two's-complement reduction of [z] to a signed [w]-bit integer. *)
Definition wrap (w : Z) (z : Z) : Z := (z + 2 ^ (w - 1)) mod 2 ^ w - 2 ^ (w - 1).

Definition i64_min : Z := - 2 ^ 63.
Definition i64_max : Z := 2 ^ 63 - 1.
Definition i32_max : Z := 2 ^ 31 - 1.

Definition wrap64 : Z -> Z := wrap 64.
Definition wrap32 : Z -> Z := wrap 32.

Definition in_i64 (z : Z) : Prop := i64_min <= z <= i64_max.
Definition in_i32 (z : Z) : Prop := - 2 ^ 31 <= z <= i32_max.

(** Conversion of a signed integer to [size_t] (64-bit unsigned), as the
    comparison [index < str.size()] and the call [str.substr(index, 1)]
    perform it on the [int] cursor. *)
Definition to_size_t (z : Z) : Z := z mod 2 ^ 64.

(** Conversion [i64 -> f64], round to nearest even. *)
Definition to_f64 (z : Z) : float := SF2Prim (binary_normalize prec emax z 0 false).

End Int.

(** ** Values ([value.h]) *)

(** [enum class ValueKind]; [Nothing_] and [String_] carry an underscore
    because [Nothing] is the singleton below and [String] builds strings. *)
Inductive ValueKind : Set :=
| Nothing_
| Integer
| String_
| Float
| BuiltInFunction
| Iterator
| Range.

(** Address of a heap-allocated [Iterator] object. *)
Definition iter_ptr : Set := positive.

(** Address of a native function taking the argument vector and the
    location tag and returning a [Ref<Value>]. *)
Definition func_ptr : Set := N.

(** [struct Value]: the kind tag selects the active member of the union, so
    each constructor carries exactly the member its kind reads. *)
Inductive Value : Set :=
| VNothing
| VInteger (as_int : Z)
| VString (as_string : string)
| VFloat (as_float : float)
| VBuiltInFunction (name : string) (func : func_ptr)
| VIterator (as_iter : iter_ptr)
| VRange (start end_ : Z).

Definition kind (v : Value) : ValueKind :=
  match v with
  | VNothing => Nothing_
  | VInteger _ => Integer
  | VString _ => String_
  | VFloat _ => Float
  | VBuiltInFunction _ _ => BuiltInFunction
  | VIterator _ => Iterator
  | VRange _ _ => Range
  end.

(** ** Iterator objects ([value.cc], lines 65-98) *)

Record StringIterator : Set := mkStringIterator {
  str : string;
  index : Z            (* int *)
}.

Record RangeIterator : Set := mkRangeIterator {
  start : Z;           (* i64 *)
  end_ : Z;            (* i64 *)
  current : Z          (* i64 *)
}.

(** The two classes deriving from [struct Iterator]. *)
Inductive IteratorObject : Set :=
| OString (it : StringIterator)
| ORange (it : RangeIterator).

(** ** The world and the outcome monad *)

Record World : Type := mkWorld {
  heap : gmap iter_ptr IteratorObject;
  cout : string;       (* bytes written to stdout *)
  cerr : string        (* bytes written to stderr *)
}.

Definition set_heap (h : gmap iter_ptr IteratorObject) (w : World) : World :=
  mkWorld h (cout w) (cerr w).
Definition set_cout (s : string) (w : World) : World :=
  mkWorld (heap w) s (cerr w).
Definition set_cerr (s : string) (w : World) : World :=
  mkWorld (heap w) (cout w) s.

Definition empty_world : World := mkWorld ∅ "" "".

(** How a call ends. *)
Inductive Outcome (A : Type) : Type :=
| Returns (a : A)      (* normal return *)
| Exited (status : Z)  (* [exit(status)] *)
| Trapped              (* hardware arithmetic exception of integer division *)
| Thrown               (* [std::out_of_range] leaving [substr] *)
| Undefined            (* what the language leaves undefined: a dangling pointer,
                          a missing format argument, a counter past its type *)
| OutOfFuel.           (* the loop budget of the model ran out *)

Arguments Returns {A} a.
Arguments Exited {A} status.
Arguments Trapped {A}.
Arguments Thrown {A}.
Arguments Undefined {A}.
Arguments OutOfFuel {A}.

Definition M (A : Type) : Type := World -> Outcome A * World.

Definition ret {A} (a : A) : M A := fun w => (Returns a, w).

Definition bind {A B} (c : M A) (k : A -> M B) : M B :=
  fun w =>
    match c w with
    | (Returns a, w') => k a w'
    | (Exited s, w') => (Exited s, w')
    | (Trapped, w') => (Trapped, w')
    | (Thrown, w') => (Thrown, w')
    | (Undefined, w') => (Undefined, w')
    | (OutOfFuel, w') => (OutOfFuel, w')
    end.

Definition stop {A} (o : forall B, Outcome B) : M A := fun w => (o A, w).

Notation "x <- c1 ;; c2" := (bind c1 (fun x => c2))
  (at level 100, c1 at next level, right associativity).
Notation "c1 ;; c2" := (bind c1 (fun _ => c2))
  (at level 100, right associativity).

(** *** Streams and process exit *)

Definition newline : string := String "010"%char EmptyString.

(** [std::cout << s] for text. *)
Definition cout_write (s : string) : M unit :=
  fun w => (Returns tt, set_cout (cout w +:+ s) w).

Definition cerr_write (s : string) : M unit :=
  fun w => (Returns tt, set_cerr (cerr w +:+ s) w).

Definition exit {A} (status : Z) : M A := stop (fun B => @Exited B status).

(** Whether a format string holds a conversion specification. *)
Fixpoint has_directive (fmt : string) : bool :=
  match fmt with
  | EmptyString => false
  | String c rest => if Ascii.eqb c "%"%char then true else has_directive rest
  end.

(** [vfprintf(stderr, fmt, args)] with the empty argument list every call
    site of [error] passes: a format without directives is copied
    verbatim, a directive would read an argument that is not there. *)
Definition vfprintf_stderr (fmt : string) : M unit :=
  if has_directive fmt then stop (@Undefined) else cerr_write fmt.

(** [value.cc], lines 8-17. *)
Definition error {A} (loc fmt : string) : M A :=
  cerr_write (loc +:+ ": Error: ") ;;
  vfprintf_stderr fmt ;;
  cerr_write newline ;;
  exit 1.

(** *** The iterator heap *)

(** [new T(...)]: the object is placed at an address not yet in use. *)
Definition new (o : IteratorObject) : M iter_ptr :=
  fun w =>
    let p := fresh (dom (heap w)) in
    (Returns p, set_heap (<[p := o]> (heap w)) w).

(** Reading the object behind a pointer; a pointer to nothing is a
    programming error. *)
Definition load (p : iter_ptr) : M IteratorObject :=
  fun w =>
    match heap w !! p with
    | Some o => (Returns o, w)
    | None => (Undefined, w)
    end.

Definition store (p : iter_ptr) (o : IteratorObject) : M unit :=
  fun w => (Returns tt, set_heap (<[p := o]> (heap w)) w).

(** [std::string::substr(pos, len)]: throws when [pos] lies beyond the
    end, otherwise returns at most [len] bytes from [pos]. *)
Definition substr (s : string) (pos len : Z) : M string :=
  if Z.of_nat (String.length s) <? pos then stop (@Thrown)
  else ret (String.substring (Z.to_nat pos) (Z.to_nat len) s).

(** Constructors of the two iterator classes ([value.cc], lines 71 and 89). *)
Definition StringIterator_ctor (str : string) : StringIterator :=
  mkStringIterator str 0.

Definition RangeIterator_ctor (start end_ : Z) : RangeIterator :=
  mkRangeIterator start end_ start.

(** ** The absence singleton ([value.cc], lines 19-25) *)

Definition Nothing : Value := VNothing.

(** ** [struct Value]: factories and methods *)

Module Value.

(** [value.cc], lines 27-63. *)
Definition from_int (value : Z) : M Value := ret (VInteger value).
Definition from_string (value : string) : M Value := ret (VString value).
Definition from_float (value : float) : M Value := ret (VFloat value).
Definition from_iterator (iter : iter_ptr) : M Value := ret (VIterator iter).
Definition from_range (start end_ : Z) : M Value := ret (VRange start end_).
Definition from_builtin (name : string) (func : func_ptr) : M Value :=
  ret (VBuiltInFunction name func).

(** [value.cc], lines 101-107. *)
Definition iter (this : Value) (loc : string) : M Value :=
  match this with
  | VString s =>
      p <- new (OString (StringIterator_ctor s)) ;; from_iterator p
  | VRange start end_ =>
      p <- new (ORange (RangeIterator_ctor start end_)) ;; from_iterator p
  | _ => error loc "value is not iterable"
  end.

(** [value.cc], lines 109-124. *)
Definition add (this other : Value) (loc : string) : M Value :=
  match this, other with
  | VInteger a, VInteger b => from_int (Int.wrap64 (a + b))
  | VInteger a, VFloat b => from_float (Int.to_f64 a + b)%float
  | VFloat a, VInteger b => from_float (a + Int.to_f64 b)%float
  | VFloat a, VFloat b => from_float (a + b)%float
  | VString a, VString b => from_string (a +:+ b)
  | _, _ => error loc "invalid operands to binary +"
  end.

(** [value.cc], lines 126-137. *)
Definition sub (this other : Value) (loc : string) : M Value :=
  match this, other with
  | VInteger a, VInteger b => from_int (Int.wrap64 (a - b))
  | VInteger a, VFloat b => from_float (Int.to_f64 a - b)%float
  | VFloat a, VInteger b => from_float (a - Int.to_f64 b)%float
  | VFloat a, VFloat b => from_float (a - b)%float
  | _, _ => error loc "invalid operands to binary +"
  end.

(** The repetition loop of [mul] ([value.cc], lines 150-152): the counter
    [i] is an [int] compared against the [i64] count.  Each round tests
    [i < n], appends, and then evaluates [i++]; on the largest [int] that
    increment overflows, and the language leaves the rest of the run
    undefined. *)
Fixpoint mul_loop (fuel : nat) (i n : Z) (s result : string) : M string :=
  if i <? n then
    match fuel with
    | O => stop (@OutOfFuel)
    | S fuel' =>
        if i =? Int.i32_max then stop (@Undefined)
        else mul_loop fuel' (i + 1) n s (result +:+ s)
    end
  else ret result.

(** [value.cc], lines 139-157. *)
Definition mul (fuel : nat) (this other : Value) (loc : string) : M Value :=
  match this, other with
  | VInteger a, VInteger b => from_int (Int.wrap64 (a * b))
  | VInteger a, VFloat b => from_float (Int.to_f64 a * b)%float
  | VFloat a, VInteger b => from_float (a * Int.to_f64 b)%float
  | VFloat a, VFloat b => from_float (a * b)%float
  | VString s, VInteger n =>
      result <- mul_loop fuel 0 n s "" ;; from_string result
  | _, _ => error loc "invalid operands to binary +"
  end.

(** [i64 / i64]: the quotient truncates toward zero; a zero divisor and
    the one quotient that does not fit 64 bits raise the processor's
    divide exception. *)
Definition i64_div (a b : Z) : M Z :=
  if b =? 0 then stop (@Trapped)
  else if (a =? Int.i64_min) && (b =? -1) then stop (@Trapped)
  else ret (a ÷ b).

(** [value.cc], lines 159-170. *)
Definition div (this other : Value) (loc : string) : M Value :=
  match this, other with
  | VInteger a, VInteger b => q <- i64_div a b ;; from_int q
  | VInteger a, VFloat b => from_float (Int.to_f64 a / b)%float
  | VFloat a, VInteger b => from_float (a / Int.to_f64 b)%float
  | VFloat a, VFloat b => from_float (a / b)%float
  | _, _ => error loc "invalid operands to binary +"
  end.

End Value.

(** ** Iterator methods ([value.cc], lines 65-98); [this] is the object's address *)

Module StringIterator.

Definition self (this : iter_ptr) : M StringIterator :=
  o <- load this ;;
  match o with
  | OString it => ret it
  | ORange _ => stop (@Undefined)
  end.

Definition has_next (this : iter_ptr) : M bool :=
  it <- self this ;;
  ret (Int.to_size_t (index it) <? Z.of_nat (String.length (str it))).

(** [str.substr(index++, 1)]: the cursor is advanced before [substr] runs. *)
Definition next (this : iter_ptr) : M Value :=
  it <- self this ;;
  store this (OString (mkStringIterator (str it) (Int.wrap32 (index it + 1)))) ;;
  piece <- substr (str it) (Int.to_size_t (index it)) 1 ;;
  Value.from_string piece.

End StringIterator.

Module RangeIterator.

Definition self (this : iter_ptr) : M RangeIterator :=
  o <- load this ;;
  match o with
  | ORange it => ret it
  | OString _ => stop (@Undefined)
  end.

Definition has_next (this : iter_ptr) : M bool :=
  it <- self this ;;
  ret (current it <? end_ it).

Definition next (this : iter_ptr) : M Value :=
  it <- self this ;;
  store this (ORange (mkRangeIterator (start it) (end_ it) (Int.wrap64 (current it + 1)))) ;;
  Value.from_int (current it).

End RangeIterator.

(** Virtual dispatch through [struct Iterator] ([value.h], lines 36-40). *)
Module Iterator.

Definition has_next (this : iter_ptr) : M bool :=
  o <- load this ;;
  match o with
  | OString _ => StringIterator.has_next this
  | ORange _ => RangeIterator.has_next this
  end.

Definition next (this : iter_ptr) : M Value :=
  o <- load this ;;
  match o with
  | OString _ => StringIterator.next this
  | ORange _ => RangeIterator.next this
  end.

End Iterator.

(** ** [print] ([value.cc], lines 172-211) *)

(** [std::cout << i64]: decimal digits, a leading minus sign when negative. *)
Definition show_i64 (z : Z) : string := NilZero.string_of_int (Z.to_int z).

Section Print.

(** [std::cout << f64] belongs to the C++ library; the stream's default
    floating-point rendering is taken as given. *)
Variable show_f64 : float -> string.

(** The body of the [switch]. *)
Definition print_arg (arg : Value) : M unit :=
  match arg with
  | VNothing => cout_write "nothing"
  | VInteger n => cout_write (show_i64 n)
  | VFloat x => cout_write (show_f64 x)
  | VString s => cout_write s
  | VRange start end_ =>
      cout_write (show_i64 start) ;; cout_write ".." ;; cout_write (show_i64 end_)
  | VIterator _ => cout_write "<iterator>"
  | VBuiltInFunction name _ =>
      cout_write "<builtin function: " ;; cout_write name ;; cout_write ">"
  end.

(** [for (auto arg : args) { switch ...; std::cout << " "; }] *)
Fixpoint print_loop (args : list Value) : M unit :=
  match args with
  | [] => ret tt
  | arg :: rest => print_arg arg ;; cout_write " " ;; print_loop rest
  end.

Definition print (args : list Value) (loc : string) : M Value :=
  print_loop args ;;
  cout_write newline ;;
  ret Nothing.

(** *** The rendering of section 4.5 of the specification, kind by kind *)

Definition render (v : Value) : string :=
  match v with
  | VNothing => "nothing"
  | VInteger n => show_i64 n
  | VFloat x => show_f64 x
  | VString s => s
  | VRange start end_ => show_i64 start +:+ ".." +:+ show_i64 end_
  | VIterator _ => "<iterator>"
  | VBuiltInFunction name _ => "<builtin function: " +:+ name +:+ ">"
  end.

(** One token per argument, each followed by a space. *)
Fixpoint tokens (args : list Value) : string :=
  match args with
  | [] => ""
  | arg :: rest => render arg +:+ " " +:+ tokens rest
  end.

End Print.

(** ** The caller's side of the contracts *)

(** The four binary operations behind one selector. *)
Inductive BinOp : Set := Add | Sub | Mul | Div.

Definition apply_op (op : BinOp) (fuel : nat) (this other : Value) (loc : string)
  : M Value :=
  match op with
  | Add => Value.add this other loc
  | Sub => Value.sub this other loc
  | Mul => Value.mul fuel this other loc
  | Div => Value.div this other loc
  end.

Definition float_op (op : BinOp) (a b : float) : float :=
  match op with
  | Add => a + b
  | Sub => a - b
  | Mul => a * b
  | Div => a / b
  end%float.

Definition exact_op (op : BinOp) (a b : Z) : Z :=
  match op with
  | Add => a + b
  | Sub => a - b
  | Mul => a * b
  | Div => a ÷ b
  end.

Definition numeric (k : ValueKind) : bool :=
  match k with
  | Integer | Float => true
  | _ => false
  end.

(** The kind pairs for which section 4.2 of the specification defines an
    operation: numeric pairs for all four, String + String, String * Integer. *)
Definition in_table (op : BinOp) (k1 k2 : ValueKind) : bool :=
  (numeric k1 && numeric k2)
  || match op, k1, k2 with
     | Add, String_, String_ => true
     | Mul, String_, Integer => true
     | _, _, _ => false
     end.

(** The coercion table of section 4.2 read as a relation between a numeric
    operand pair and the outcome of the operation. *)
Definition follows_coercion_table (op : BinOp) (x y : Value) (r : Outcome Value)
  : Prop :=
  match x, y with
  | VInteger a, VInteger b => exists n, r = Returns (VInteger n)
  | VInteger a, VFloat b => r = Returns (VFloat (float_op op (Int.to_f64 a) b))
  | VFloat a, VInteger b => r = Returns (VFloat (float_op op a (Int.to_f64 b)))
  | VFloat a, VFloat b => r = Returns (VFloat (float_op op a b))
  | _, _ => True
  end.

(** Integer division is the one numeric case the processor can refuse. *)
Definition division_defined (op : BinOp) (x y : Value) : Prop :=
  match op, x, y with
  | Div, VInteger a, VInteger b => b <> 0 /\ ~ (a = Int.i64_min /\ b = -1)
  | _, _, _ => True
  end.

(** The one diagnostic line [error] leaves on the error stream. *)
Definition diagnostic (loc message : string) : string :=
  loc +:+ ": Error: " +:+ message +:+ newline.

(** The symbol under which the language spells each operation. *)
Definition op_symbol (op : BinOp) : string :=
  match op with
  | Add => "+"
  | Sub => "-"
  | Mul => "*"
  | Div => "/"
  end.

(** [s] appended [n] times to [acc]. *)
Fixpoint append_times (n : nat) (s acc : string) : string :=
  match n with
  | O => acc
  | S n' => append_times n' s (acc +:+ s)
  end.

(** The one-character substrings of a string, left to right. *)
Fixpoint chars (s : string) : list string :=
  match s with
  | EmptyString => []
  | String c rest => String c EmptyString :: chars rest
  end.

(** A string of [n] copies of one character. *)
Fixpoint filled (n : nat) (c : ascii) : string :=
  match n with
  | O => EmptyString
  | S n' => String c (filled n' c)
  end.

(** The consumer's loop of section 4.3: ask [has_next], and only after a
    [true] answer call [next]; the values are collected in order. *)
Fixpoint drain (fuel : nat) (it : iter_ptr) : M (list Value) :=
  match fuel with
  | O => stop (@OutOfFuel)
  | S fuel' =>
      more <- Iterator.has_next it ;;
      if more : bool then
        v <- Iterator.next it ;;
        vs <- drain fuel' it ;;
        ret (v :: vs)
      else ret []
  end.

(** [iter] followed by a full traversal of the iterator it returns. *)
Definition iterate (fuel : nat) (v : Value) (loc : string) : M (list Value) :=
  it <- Value.iter v loc ;;
  match it with
  | VIterator p => drain fuel p
  | _ => stop (@Undefined)
  end.

(** [acc = acc + v] for every value of a traversal, left to right: the
    loop a program writes to gather what an iterator yields. *)
Fixpoint add_all (acc : Value) (vs : list Value) (loc : string) : M Value :=
  match vs with
  | [] => ret acc
  | v :: rest => acc' <- Value.add acc v loc ;; add_all acc' rest loc
  end.

(** Two iterator objects of the same class over the same source: the same
    string, or the same bounds. *)
Definition same_source (a b : IteratorObject) : Prop :=
  match a, b with
  | OString x, OString y => str y = str x
  | ORange x, ORange y => start y = start x /\ end_ y = end_ x
  | _, _ => False
  end.

(** [w'] differs from [w] at most in the cursor of the iterator at [p]:
    the streams, every other iterator, and the source of the iterator at
    [p] are the same. *)
Definition cursor_moved_only (p : iter_ptr) (w w' : World) : Prop :=
  cout w' = cout w
  /\ cerr w' = cerr w
  /\ (forall q : iter_ptr, q <> p -> heap w' !! q = heap w !! q)
  /\ match heap w !! p, heap w' !! p with
     | Some a, Some b => same_source a b
     | None, None => True
     | _, _ => False
     end.

(** ** Destruction ([value.cc], lines 214-227) *)

(** [delete p] on an [Iterator *]: the virtual destructor runs (both
    bodies are empty) and the object is gone; deleting an address that
    holds no object is undefined. *)
Definition delete_iterator (p : iter_ptr) : M unit :=
  fun w =>
    match heap w !! p with
    | Some _ => (Returns tt, set_heap (delete p (heap w)) w)
    | None => (Undefined, w)
    end.

(** [Value::~Value].  A String payload is held by value in this embedding,
    so freeing it leaves no trace in the world. *)
Definition Value_dtor (this : Value) : M unit :=
  match this with
  | VString _ => ret tt
  | VIterator iter => delete_iterator iter
  | _ => ret tt
  end.

(** The fault kinds of section 7 of the specification, each with the
    message the code hands to [error] when it raises that fault.  (The
    third is raised by the [default] branch of [print]'s [switch], which no
    Value of the seven kinds reaches.) *)
Inductive FaultKind : Set :=
| TypeOperandError
| NotIterableError
| UnsupportedPrintKind.

Definition fault_message (k : FaultKind) : string :=
  match k with
  | TypeOperandError => "invalid operands to binary +"
  | NotIterableError => "value is not iterable"
  | UnsupportedPrintKind => "unsupported value kind in print"
  end.

(** A call that ends in the fatal fault [k]: one diagnostic line on the
    error stream, nothing else touched, exit status 1. *)
Definition faults_with {A} (k : FaultKind) (loc : string) (w : World)
  (r : Outcome A * World) : Prop :=
  r = (Exited 1, set_cerr (cerr w +:+ diagnostic loc (fault_message k)) w).

Definition returns_value {A} (r : Outcome A * World) : Prop :=
  exists a, fst r = Returns a.

(** * Properties *)

(** ** Strings and machine integers *)

Lemma append_assoc (a b c : string) : (a +:+ b) +:+ c = a +:+ (b +:+ c).
Proof.
  induction a as [|ch a IH].
  - reflexivity.
  - change (String ch ((a +:+ b) +:+ c) = String ch (a +:+ (b +:+ c))).
    now rewrite IH.
Qed.

Lemma append_empty_r (a : string) : a +:+ "" = a.
Proof.
  induction a as [|ch a IH]; [reflexivity |].
  change (String ch (a +:+ "") = String ch a). congruence.
Qed.

Lemma wrap64_id (z : Z) : Int.in_i64 z -> Int.wrap64 z = z.
Proof.
  unfold Int.in_i64, Int.i64_min, Int.i64_max, Int.wrap64, Int.wrap.
  intros Hz. rewrite Z.mod_small; lia.
Qed.

Lemma wrap32_id (z : Z) : Int.in_i32 z -> Int.wrap32 z = z.
Proof.
  unfold Int.in_i32, Int.i32_max, Int.wrap32, Int.wrap.
  intros Hz. rewrite Z.mod_small; lia.
Qed.

Lemma wrap32_range (z : Z) : Int.in_i32 (Int.wrap32 z).
Proof.
  unfold Int.in_i32, Int.i32_max, Int.wrap32, Int.wrap.
  pose proof (Z.mod_pos_bound (z + 2 ^ (32 - 1)) (2 ^ 32)). lia.
Qed.

(** Linear arithmetic over the named bounds of the machine integers. *)
Ltac int_lia :=
  unfold Int.in_i64, Int.in_i32, Int.i64_min, Int.i64_max, Int.i32_max in *; lia.

(** ** Faults *)

Lemma fault_never_returns {A} k loc w (r : Outcome A * World) :
  faults_with k loc w r -> ~ returns_value r.
Proof. intros -> [a Ha]. discriminate Ha. Qed.

(** [error] with a directive-free message: one line, then [exit(1)]. *)
Lemma error_run {A} (loc fmt : string) (w : World) :
  has_directive fmt = false ->
  @error A loc fmt w = (Exited 1, set_cerr (cerr w +:+ diagnostic loc fmt) w).
Proof.
  intros Hfmt. unfold error, vfprintf_stderr, bind, cerr_write, exit, stop.
  rewrite Hfmt. cbn. unfold set_cerr, diagnostic. cbn.
  now rewrite !append_assoc.
Qed.

Lemma error_faults {A} (k : FaultKind) (loc : string) (w : World) :
  faults_with k loc w (@error A loc (fault_message k) w).
Proof. apply error_run. now destruct k. Qed.

(** C2. Outside the table of defined kind pairs (numeric pairs for the
    four operations, String + String, String * Integer) every arithmetic
    operation ends in the fatal TypeOperandError fault and hands no Value
    back to its caller. *)
Theorem unsupported_operands_fault
  (op : BinOp) (fuel : nat) (x y : Value) (loc : string) (w : World) :
  in_table op (kind x) (kind y) = false ->
  faults_with TypeOperandError loc w (apply_op op fuel x y loc w)
  /\ ~ returns_value (apply_op op fuel x y loc w).
Proof.
  intros Hout.
  assert (Hf : faults_with TypeOperandError loc w (apply_op op fuel x y loc w)).
  { destruct op, x, y; cbn in Hout; try discriminate Hout;
      apply (error_faults TypeOperandError). }
  split; [exact Hf | exact (fault_never_returns _ _ _ _ Hf)].
Qed.

Lemma unsupported_operands_fault_witness :
  in_table Add (kind VNothing) (kind (VInteger 1)) = false
  /\ (faults_with TypeOperandError "main.sp:1" empty_world
        (apply_op Add 0 VNothing (VInteger 1) "main.sp:1" empty_world)
      /\ ~ returns_value (apply_op Add 0 VNothing (VInteger 1) "main.sp:1" empty_world)).
Proof.
  split; [reflexivity |].
  apply (unsupported_operands_fault Add 0 VNothing (VInteger 1)). reflexivity.
Defined.

(** C3. The diagnostic of a failed subtraction, multiplication or division
    has the required shape and the run ends with status 1, but the message
    names the operator [+] for all of them: it is the very line a failed
    addition writes, and the symbol of the operation invoked is absent. *)
Theorem diagnostic_names_plus_for_every_operation :
  let line := "f.sp:1: Error: invalid operands to binary +" +:+ newline in
  Value.add (VInteger 1) (VRange 0 1) "f.sp:1" empty_world
    = (Exited 1, set_cerr line empty_world)
  /\ Value.sub (VInteger 1) (VString "a") "f.sp:1" empty_world
    = (Exited 1, set_cerr line empty_world)
  /\ Value.mul 0 (VInteger 2) (VString "a") "f.sp:1" empty_world
    = (Exited 1, set_cerr line empty_world)
  /\ Value.div (VString "a") (VInteger 2) "f.sp:1" empty_world
    = (Exited 1, set_cerr line empty_world)
  /\ forall op : BinOp,
       fault_message TypeOperandError = "invalid operands to binary " +:+ op_symbol op
       -> op = Add.
Proof.
  cbv zeta. repeat split; try reflexivity.
  intros [] H; [reflexivity | discriminate H ..].
Qed.

(** Integer times String is not String times Integer. *)
Example mul_integer_string_faults (w : World) :
  faults_with TypeOperandError "t" w (Value.mul 0 (VInteger 3) (VString "ab") "t" w).
Proof. apply (error_faults TypeOperandError). Qed.

(** C7. [iter] on a Value that is neither a String nor a Range ends in the
    fatal NotIterableError fault, tagged with the caller's location, and
    returns nothing. *)
Theorem iter_not_iterable (v : Value) (loc : string) (w : World) :
  kind v <> String_ -> kind v <> Range ->
  faults_with NotIterableError loc w (Value.iter v loc w)
  /\ ~ returns_value (Value.iter v loc w).
Proof.
  intros Hs Hr.
  assert (Hf : faults_with NotIterableError loc w (Value.iter v loc w)).
  { destruct v; cbn in Hs, Hr; try congruence; apply (error_faults NotIterableError). }
  split; [assumption | eapply fault_never_returns; eassumption].
Qed.

Lemma iter_not_iterable_witness :
  kind (VInteger 5) <> String_ /\ kind (VInteger 5) <> Range
  /\ (faults_with NotIterableError "main.sp:7" empty_world
        (Value.iter (VInteger 5) "main.sp:7" empty_world)
      /\ ~ returns_value (Value.iter (VInteger 5) "main.sp:7" empty_world)).
Proof.
  split; [discriminate |]. split; [discriminate |].
  apply (iter_not_iterable (VInteger 5)); discriminate.
Defined.

(** ** The arithmetic dispatcher *)

Lemma i64_div_defined (a b : Z) (w : World) :
  b <> 0 -> ~ (a = Int.i64_min /\ b = -1) ->
  Value.i64_div a b w = (Returns (a ÷ b), w).
Proof.
  intros Hb Hovf. unfold Value.i64_div.
  destruct (Z.eqb_spec b 0) as [|_]; [contradiction |].
  destruct (Z.eqb_spec a Int.i64_min) as [Ha|_];
    destruct (Z.eqb_spec b (-1)) as [Hb1|_]; cbn; try reflexivity.
  exfalso. apply Hovf. now split.
Qed.

Lemma i64_div_zero (a : Z) (w : World) : Value.i64_div a 0 w = (Trapped, w).
Proof. reflexivity. Qed.

(** The quotient of two 64-bit integers leaves the 64-bit range in one
    case only. *)
Lemma quot_in_i64 (a b : Z) :
  Int.in_i64 a -> Int.in_i64 b -> b <> 0 ->
  Int.in_i64 (a ÷ b) <-> ~ (a = Int.i64_min /\ b = -1).
Proof.
  unfold Int.in_i64, Int.i64_min, Int.i64_max. intros Ha Hb Hb0. split.
  - intros Hq [-> ->]. revert Hq. vm_compute. intros [_ Hq]. now apply Hq.
  - intros Hne.
    pose proof (Z.quot_rem' a b) as Hqr.
    pose proof (Z.rem_bound_abs a b Hb0) as Hr.
    pose proof (Z.rem_sign_mul a b Hb0) as Hs.
    nia.
Qed.

(** The remainder left by [a ÷ b] is smaller than the divisor and never of
    the sign opposite to the dividend: the quotient is the exact one with
    its fractional part dropped. *)
Lemma quot_truncates (a b : Z) :
  b <> 0 ->
  exists r, a = b * (a ÷ b) + r /\ Z.abs r < Z.abs b /\ 0 <= r * a.
Proof.
  intros Hb. exists (Z.rem a b). split; [apply Z.quot_rem'|].
  split; [now apply Z.rem_bound_abs | now apply Z.rem_sign_mul].
Qed.

(** C1 (as stated, refuted). Integer 1 divided by Integer 0 is a pair of
    numeric Values on which [div] yields no Integer. *)
Lemma zero_divisor_leaves_table :
  numeric (kind (VInteger 1)) = true /\ numeric (kind (VInteger 0)) = true
  /\ ~ follows_coercion_table Div (VInteger 1) (VInteger 0)
         (fst (apply_op Div 0 (VInteger 1) (VInteger 0) "main.sp:1" empty_world)).
Proof.
  split; [reflexivity |]. split; [reflexivity |].
  intros [n Hn]. discriminate Hn.
Qed.

(** C1 (amended). For every pair of numeric Values on which the operation
    is defined (integer division needs a nonzero divisor and a quotient
    that fits 64 bits), each of add, sub, mul and div follows the coercion
    table: Integer with Integer yields an Integer; Integer with Float and
    Float with Integer yield the Float obtained by promoting the integer
    operand and then applying the operation; Float with Float yields a
    Float.  Nothing is written and no iterator is touched. *)
Theorem arithmetic_follows_coercion_table
  (op : BinOp) (fuel : nat) (x y : Value) (loc : string) (w : World) :
  numeric (kind x) = true -> numeric (kind y) = true ->
  division_defined op x y ->
  (follows_coercion_table op x y (fst (apply_op op fuel x y loc w))
   /\ snd (apply_op op fuel x y loc w) = w)
  /\ Value.add (VInteger 2) (VInteger 3) loc w = (Returns (VInteger 5), w)
  /\ Value.add (VInteger 2) (VFloat 3) loc w = (Returns (VFloat 5), w)
  /\ Value.add (VFloat 1.5) (VInteger 2) loc w = (Returns (VFloat 3.5), w).
Proof.
  intros Hx Hy Hdef. split; [| repeat split].
  destruct x; try discriminate Hx; destruct y; try discriminate Hy;
    destruct op; cbn in *; try (split; [eexists|]; reflexivity);
    try (split; reflexivity).
  destruct Hdef as [Hnz Hovf].
  unfold Value.div, bind. rewrite i64_div_defined by assumption.
  cbn. split; [eexists|]; reflexivity.
Qed.

Lemma arithmetic_follows_coercion_table_witness :
  numeric (kind (VInteger 2)) = true /\ numeric (kind (VFloat 3)) = true
  /\ division_defined Add (VInteger 2) (VFloat 3)
  /\ ((follows_coercion_table Add (VInteger 2) (VFloat 3)
         (fst (apply_op Add 0 (VInteger 2) (VFloat 3) "main.sp:1" empty_world))
       /\ snd (apply_op Add 0 (VInteger 2) (VFloat 3) "main.sp:1" empty_world)
          = empty_world)
      /\ Value.add (VInteger 2) (VInteger 3) "main.sp:1" empty_world
         = (Returns (VInteger 5), empty_world)
      /\ Value.add (VInteger 2) (VFloat 3) "main.sp:1" empty_world
         = (Returns (VFloat 5), empty_world)
      /\ Value.add (VFloat 1.5) (VInteger 2) "main.sp:1" empty_world
         = (Returns (VFloat 3.5), empty_world)).
Proof.
  split; [reflexivity |]. split; [reflexivity |]. split; [exact I |].
  apply (arithmetic_follows_coercion_table Add 0 (VInteger 2) (VFloat 3));
    [reflexivity | reflexivity | exact I].
Defined.

(** String with String under [add] is concatenation. *)
Example add_ab_cd (w : World) :
  Value.add (VString "ab") (VString "cd") "t" w = (Returns (VString "abcd"), w).
Proof. reflexivity. Qed.

(** C4 (as stated, refuted). Both operands are 64-bit integers and the
    divisor is not zero, yet [div] does not return the exact quotient
    2^63: no Integer payload can hold it. *)
Lemma quotient_overflow_not_exact :
  Int.in_i64 Int.i64_min /\ Int.in_i64 (-1) /\ -1 <> 0
  /\ fst (Value.div (VInteger Int.i64_min) (VInteger (-1)) "main.sp:1" empty_world)
     <> Returns (VInteger (Int.i64_min ÷ -1)).
Proof.
  split; [unfold Int.in_i64, Int.i64_min, Int.i64_max; lia |].
  split; [unfold Int.in_i64, Int.i64_min, Int.i64_max; lia |].
  split; [lia |]. vm_compute. discriminate.
Qed.

(** C4 (amended). For two Integer Values whose exact sum, difference,
    product or truncated quotient (divisor not zero) is itself a 64-bit
    integer, the operation returns exactly that Integer; the quotient is
    the exact one truncated toward zero. *)
Theorem integer_arithmetic_exact
  (op : BinOp) (fuel : nat) (a b : Z) (loc : string) (w : World) :
  Int.in_i64 a -> Int.in_i64 b ->
  (op = Div -> b <> 0) ->
  Int.in_i64 (exact_op op a b) ->
  apply_op op fuel (VInteger a) (VInteger b) loc w
    = (Returns (VInteger (exact_op op a b)), w)
  /\ (op = Div ->
      exists r, a = b * exact_op op a b + r /\ Z.abs r < Z.abs b /\ 0 <= r * a)
  /\ Value.div (VInteger 7) (VInteger 2) loc w = (Returns (VInteger 3), w)
  /\ Value.div (VInteger (-7)) (VInteger 2) loc w = (Returns (VInteger (-3)), w).
Proof.
  intros Ha Hb Hnz Hfit. split; [| split; [| split; reflexivity]].
  - destruct op; cbn in *;
      try (unfold Value.from_int, ret; now rewrite wrap64_id).
    specialize (Hnz eq_refl).
    unfold Value.div, bind.
    rewrite i64_div_defined; [reflexivity | assumption |].
    now apply quot_in_i64.
  - intros ->. apply quot_truncates. now apply Hnz.
Qed.

Lemma integer_arithmetic_exact_witness :
  Int.in_i64 (-7) /\ Int.in_i64 2 /\ (Div = Div -> 2 <> 0)
  /\ Int.in_i64 (exact_op Div (-7) 2)
  /\ (apply_op Div 0 (VInteger (-7)) (VInteger 2) "main.sp:1" empty_world
        = (Returns (VInteger (exact_op Div (-7) 2)), empty_world)
      /\ (Div = Div ->
          exists r, -7 = 2 * exact_op Div (-7) 2 + r
                    /\ Z.abs r < Z.abs 2 /\ 0 <= r * -7)
      /\ Value.div (VInteger 7) (VInteger 2) "main.sp:1" empty_world
         = (Returns (VInteger 3), empty_world)
      /\ Value.div (VInteger (-7)) (VInteger 2) "main.sp:1" empty_world
         = (Returns (VInteger (-3)), empty_world)).
Proof.
  assert (H7 : Int.in_i64 (-7)) by (unfold Int.in_i64, Int.i64_min, Int.i64_max; lia).
  assert (H2 : Int.in_i64 2) by (unfold Int.in_i64, Int.i64_min, Int.i64_max; lia).
  assert (Hq : Int.in_i64 (exact_op Div (-7) 2))
    by (change (exact_op Div (-7) 2) with (-3);
        unfold Int.in_i64, Int.i64_min, Int.i64_max; lia).
  split; [exact H7 |]. split; [exact H2 |]. split; [lia |]. split; [exact Hq |].
  apply (integer_arithmetic_exact Div 0 (-7) 2 "main.sp:1" empty_world H7 H2);
    [lia | exact Hq].
Defined.

(** Sums that leave the 64-bit range come back reduced modulo 2^64. *)
Example add_wraps (w : World) :
  Value.add (VInteger Int.i64_max) (VInteger 1) "t" w
    = (Returns (VInteger Int.i64_min), w).
Proof. reflexivity. Qed.

(** ** String repetition *)

Lemma mul_loop_eq (fuel : nat) (i n : Z) (s result : string) :
  Value.mul_loop fuel i n s result =
  if i <? n then
    match fuel with
    | O => stop (@OutOfFuel)
    | S fuel' =>
        if i =? Int.i32_max then stop (@Undefined)
        else Value.mul_loop fuel' (i + 1) n s (result +:+ s)
    end
  else ret result.
Proof. destruct fuel; reflexivity. Qed.

(** While the count fits an [int], the loop body runs once per unit left
    between the counter and the count, and the counter never overflows. *)
Lemma mul_loop_counts (k : nat) :
  forall (fuel : nat) (i n : Z) (s result : string) (w : World),
    0 <= i -> i + Z.of_nat k = n -> n <= Int.i32_max -> (k <= fuel)%nat ->
    Value.mul_loop fuel i n s result w = (Returns (append_times k s result), w).
Proof.
  induction k as [|k IH]; intros fuel i n s result w Hi Hk Hn Hfuel;
    rewrite mul_loop_eq.
  - destruct (Z.ltb_spec i n); [lia | reflexivity].
  - destruct (Z.ltb_spec i n); [| lia].
    destruct fuel as [|fuel]; [lia |].
    destruct (Z.eqb_spec i Int.i32_max); [lia |].
    cbn [append_times]. apply IH; lia.
Qed.

(** Once the count exceeds every [int], a run that is given the budget
    for it reaches the increment of the largest [int]. *)
Lemma mul_loop_overflows (n : Z) :
  Int.i32_max < n ->
  forall (k fuel : nat) (i : Z) (s result : string) (w : World),
    i + Z.of_nat k = Int.i32_max -> (k < fuel)%nat ->
    Value.mul_loop fuel i n s result w = (Undefined, w).
Proof.
  intros Hn k. induction k as [|k IH]; intros fuel i s result w Hk Hfuel;
    rewrite mul_loop_eq;
    (destruct (Z.ltb_spec i n); [| lia]);
    (destruct fuel as [|fuel]; [lia |]);
    destruct (Z.eqb_spec i Int.i32_max); try reflexivity; try lia.
  apply IH; lia.
Qed.

(** Such a run has no way to a result: short of budget or undefined. *)
Lemma mul_loop_no_result (n : Z) :
  Int.i32_max < n ->
  forall (fuel : nat) (i : Z) (s result : string) (w : World) (r : string),
    i <= Int.i32_max ->
    fst (Value.mul_loop fuel i n s result w) <> Returns r.
Proof.
  intros Hn fuel. induction fuel as [|fuel IH]; intros i s result w r Hi;
    rewrite mul_loop_eq;
    (destruct (Z.ltb_spec i n); [| lia]).
  - discriminate.
  - destruct (Z.eqb_spec i Int.i32_max); [discriminate |].
    apply IH. lia.
Qed.

(** String times Integer, for every count an [int] can hold: the string
    appended [n] times to the empty string, the empty string when
    [n <= 0]. *)
Lemma mul_string_repeats (fuel : nat) (s : string) (n : Z) (loc : string) (w : World) :
  n <= Int.i32_max -> (Z.to_nat n <= fuel)%nat ->
  Value.mul fuel (VString s) (VInteger n) loc w
    = (Returns (VString (append_times (Z.to_nat n) s "")), w).
Proof.
  intros Hn Hfuel. unfold Value.mul, bind.
  destruct (Z.le_gt_cases n 0) as [Hneg|Hpos].
  - rewrite mul_loop_eq. destruct (Z.ltb_spec 0 n); [lia |].
    replace (Z.to_nat n) with 0%nat by lia. reflexivity.
  - rewrite (mul_loop_counts (Z.to_nat n)) by lia. reflexivity.
Qed.

Lemma mul_string_nonpositive (fuel : nat) (s : string) (n : Z) (loc : string) (w : World) :
  n <= 0 ->
  Value.mul fuel (VString s) (VInteger n) loc w = (Returns (VString ""), w).
Proof.
  intros Hn. unfold Value.mul, bind. rewrite mul_loop_eq.
  destruct (Z.ltb_spec 0 n); [lia | reflexivity].
Qed.

Example mul_ab_3 (w : World) :
  Value.mul 3 (VString "ab") (VInteger 3) "t" w = (Returns (VString "ababab"), w).
Proof. reflexivity. Qed.

Example mul_ab_0 (w : World) :
  Value.mul 0 (VString "ab") (VInteger 0) "t" w = (Returns (VString ""), w).
Proof. reflexivity. Qed.

(** C5. The repetition loop counts with an [int] against the 64-bit count.
    For a count of 2^31 the run comes, after 2^31 - 1 rounds, to the
    increment of the largest [int]: given the budget to get there the
    multiplication of the empty String by Integer 2147483648 ends in
    undefined behaviour, and no budget leads to the String the
    specification promises. *)
Theorem mul_counter_overflows_at_large_count (w : World) :
  (forall fuel : nat,
      (Z.to_nat (2 ^ 31) <= fuel)%nat ->
      Value.mul fuel (VString "") (VInteger 2147483648) "main.sp:1" w = (Undefined, w))
  /\ (forall (fuel : nat) (v : Value),
        fst (Value.mul fuel (VString "") (VInteger 2147483648) "main.sp:1" w)
        <> Returns v).
Proof.
  assert (Hbig : Int.i32_max < 2147483648) by int_lia.
  split.
  - intros fuel Hfuel. unfold Value.mul, bind.
    rewrite (mul_loop_overflows _ Hbig (Z.to_nat Int.i32_max) fuel 0 "" "" w)
      by int_lia.
    reflexivity.
  - intros fuel v. unfold Value.mul, bind.
    pose proof (mul_loop_no_result _ Hbig fuel 0 "" "" w) as Hno.
    destruct (Value.mul_loop fuel 0 2147483648 "" "" w) as [[r| | | | |] w1];
      cbn [fst] in *; try discriminate.
    exfalso. apply (Hno r); [int_lia | reflexivity].
Qed.

(** ** Printing *)

Section PrintFacts.

Variable show_f64 : float -> string.

Lemma print_arg_run (arg : Value) (w : World) :
  print_arg show_f64 arg w
    = (Returns tt, set_cout (cout w +:+ render show_f64 arg) w).
Proof.
  destruct arg; try reflexivity;
    unfold print_arg, bind, cout_write, set_cout; cbn [cout heap cerr render];
    now rewrite !append_assoc.
Qed.

Lemma print_loop_run (args : list Value) :
  forall w : World,
    print_loop show_f64 args w
      = (Returns tt, set_cout (cout w +:+ tokens show_f64 args) w).
Proof.
  induction args as [|arg rest IH]; intros w.
  - cbn [print_loop tokens]. unfold ret, set_cout.
    rewrite append_empty_r. now destruct w.
  - cbn [print_loop tokens]. unfold bind at 1. rewrite print_arg_run.
    unfold bind at 1. unfold cout_write at 1. rewrite IH.
    unfold set_cout. cbn [cout heap cerr]. now rewrite !append_assoc.
Qed.

End PrintFacts.

(** C8. [print] writes, for every argument in order, its rendering by kind
    followed by one space, then a single newline, and returns the absence
    singleton; the error stream and the iterators are left alone.
    Printing Absence and Integer 5 writes "nothing 5 " and the newline. *)
Theorem print_renders_every_argument
  (show_f64 : float -> string) (args : list Value) (loc : string) (w : World) :
  print show_f64 args loc w
    = (Returns Nothing, set_cout (cout w +:+ tokens show_f64 args +:+ newline) w)
  /\ tokens show_f64 [Nothing; VInteger 5] = "nothing 5 "
  /\ render show_f64 (VRange 2 9) = "2..9"
  /\ render show_f64 (VBuiltInFunction "print" 0%N) = "<builtin function: print>".
Proof.
  split; [| repeat split].
  unfold print, bind. rewrite print_loop_run.
  unfold cout_write, ret, set_cout. cbn [cout heap cerr].
  now rewrite append_assoc.
Qed.

(** ** Iterators *)

Lemma set_heap_same (w : World) : set_heap (heap w) w = w.
Proof. now destruct w. Qed.

Lemma load_run (p : iter_ptr) (o : IteratorObject) (w : World) :
  heap w !! p = Some o -> load p w = (Returns o, w).
Proof. intros H. unfold load. now rewrite H. Qed.

Lemma bind_returns {A B} (c : M A) (k : A -> M B) (a : A) (w w' : World) :
  c w = (Returns a, w') -> bind c k w = k a w'.
Proof. intros H. unfold bind. now rewrite H. Qed.

Lemma string_self_run (p : iter_ptr) (it : StringIterator) (w : World) :
  heap w !! p = Some (OString it) -> StringIterator.self p w = (Returns it, w).
Proof.
  intros H. unfold StringIterator.self.
  now rewrite (bind_returns _ _ _ _ _ (load_run p _ w H)).
Qed.

Lemma range_self_run (p : iter_ptr) (it : RangeIterator) (w : World) :
  heap w !! p = Some (ORange it) -> RangeIterator.self p w = (Returns it, w).
Proof.
  intros H. unfold RangeIterator.self.
  now rewrite (bind_returns _ _ _ _ _ (load_run p _ w H)).
Qed.

Lemma string_has_next_run (p : iter_ptr) (it : StringIterator) (w : World) :
  heap w !! p = Some (OString it) ->
  Iterator.has_next p w
    = (Returns (Int.to_size_t (index it) <? Z.of_nat (String.length (str it))), w).
Proof.
  intros H. unfold Iterator.has_next.
  rewrite (bind_returns _ _ _ _ _ (load_run p _ w H)).
  unfold StringIterator.has_next.
  now rewrite (bind_returns _ _ _ _ _ (string_self_run p it w H)).
Qed.

Lemma range_has_next_run (p : iter_ptr) (it : RangeIterator) (w : World) :
  heap w !! p = Some (ORange it) ->
  Iterator.has_next p w = (Returns (current it <? end_ it), w).
Proof.
  intros H. unfold Iterator.has_next.
  rewrite (bind_returns _ _ _ _ _ (load_run p _ w H)).
  unfold RangeIterator.has_next.
  now rewrite (bind_returns _ _ _ _ _ (range_self_run p it w H)).
Qed.

Lemma has_next_run (p : iter_ptr) (o : IteratorObject) (w : World) :
  heap w !! p = Some o ->
  exists b : bool, Iterator.has_next p w = (Returns b, w).
Proof.
  destruct o as [it|it]; intros H; eexists.
  - exact (string_has_next_run p it w H).
  - exact (range_has_next_run p it w H).
Qed.

(** C9. [has_next] of either iterator class answers with a boolean and
    leaves the whole world, the iterator's own cursor, string and bounds
    included, exactly as it found it; asked twice in a row without a
    [next] in between, it gives the same answer twice. *)
Theorem has_next_is_pure (p : iter_ptr) (o : IteratorObject) (w : World) :
  heap w !! p = Some o ->
  exists b : bool,
    Iterator.has_next p w = (Returns b, w)
    /\ (b1 <- Iterator.has_next p ;; b2 <- Iterator.has_next p ;; ret (b1, b2)) w
       = (Returns (b, b), w).
Proof.
  intros H. destruct (has_next_run p o w H) as [b Hb].
  exists b. split; [exact Hb |].
  unfold bind. rewrite Hb. now rewrite Hb.
Qed.

Lemma has_next_is_pure_witness :
  let w := set_heap {[ 1%positive := OString (mkStringIterator "ab" 1) ]} empty_world in
  heap w !! 1%positive = Some (OString (mkStringIterator "ab" 1))
  /\ exists b : bool,
       Iterator.has_next 1%positive w = (Returns b, w)
       /\ (b1 <- Iterator.has_next 1%positive ;;
           b2 <- Iterator.has_next 1%positive ;; ret (b1, b2)) w
          = (Returns (b, b), w).
Proof.
  cbv zeta. split; [reflexivity |].
  apply (has_next_is_pure 1%positive (OString (mkStringIterator "ab" 1))).
  reflexivity.
Defined.

Lemma new_run (o : IteratorObject) (w : World) :
  let p := fresh (dom (heap w)) in
  new o w = (Returns p, set_heap (<[p := o]> (heap w)) w)
  /\ heap w !! p = None
  /\ heap (set_heap (<[p := o]> (heap w)) w) !! p = Some o.
Proof.
  cbv zeta. split; [reflexivity |]. split.
  - apply not_elem_of_dom. apply is_fresh.
  - cbn. apply lookup_insert_eq.
Qed.

Lemma string_next_run (p : iter_ptr) (it : StringIterator) (w : World) :
  heap w !! p = Some (OString it) ->
  Int.to_size_t (index it) <= Z.of_nat (String.length (str it)) ->
  Iterator.next p w
    = (Returns (VString (substring (Z.to_nat (Int.to_size_t (index it))) 1 (str it))),
       set_heap
         (<[p := OString (mkStringIterator (str it) (Int.wrap32 (index it + 1)))]> (heap w))
         w).
Proof.
  intros H Hpos. unfold Iterator.next.
  rewrite (bind_returns _ _ _ _ _ (load_run p _ w H)).
  unfold StringIterator.next.
  rewrite (bind_returns _ _ _ _ _ (string_self_run p it w H)).
  unfold bind at 1. unfold store at 1. unfold bind, substr.
  destruct (Z.ltb_spec (Z.of_nat (String.length (str it))) (Int.to_size_t (index it)));
    [lia | reflexivity].
Qed.

Lemma range_next_run (p : iter_ptr) (it : RangeIterator) (w : World) :
  heap w !! p = Some (ORange it) ->
  Iterator.next p w
    = (Returns (VInteger (current it)),
       set_heap
         (<[p := ORange (mkRangeIterator (start it) (end_ it) (Int.wrap64 (current it + 1)))]>
            (heap w))
         w).
Proof.
  intros H. unfold Iterator.next.
  rewrite (bind_returns _ _ _ _ _ (load_run p _ w H)).
  unfold RangeIterator.next.
  rewrite (bind_returns _ _ _ _ _ (range_self_run p it w H)).
  reflexivity.
Qed.

(** C10. Each of the six factories returns, for every argument, the Value
    of its kind holding exactly that argument, and touches nothing.  A
    Range whose end does not exceed its start (the end lies some distance
    [d >= 0] below the start) is accepted like any other; [iter] on it
    returns a fresh iterator whose [has_next] is [false] at once, so a
    traversal yields the empty sequence. *)
Theorem construction_is_total :
  (forall (value : Z) (w : World),
      Value.from_int value w = (Returns (VInteger value), w)
      /\ kind (VInteger value) = Integer)
  /\ (forall (value : string) (w : World),
      Value.from_string value w = (Returns (VString value), w)
      /\ kind (VString value) = String_)
  /\ (forall (value : float) (w : World),
      Value.from_float value w = (Returns (VFloat value), w)
      /\ kind (VFloat value) = Float)
  /\ (forall (start end_ : Z) (w : World),
      Value.from_range start end_ w = (Returns (VRange start end_), w)
      /\ kind (VRange start end_) = Range)
  /\ (forall (it : iter_ptr) (w : World),
      Value.from_iterator it w = (Returns (VIterator it), w)
      /\ kind (VIterator it) = Iterator)
  /\ (forall (name : string) (func : func_ptr) (w : World),
      Value.from_builtin name func w = (Returns (VBuiltInFunction name func), w)
      /\ kind (VBuiltInFunction name func) = BuiltInFunction)
  /\ (forall (start : Z) (d : nat) (loc : string) (w : World),
      let end_ := start - Z.of_nat d in
      let p := fresh (dom (heap w)) in
      let w' := set_heap (<[p := ORange (RangeIterator_ctor start end_)]> (heap w)) w in
      Value.iter (VRange start end_) loc w = (Returns (VIterator p), w')
      /\ Iterator.has_next p w' = (Returns false, w')
      /\ forall fuel : nat, iterate (S fuel) (VRange start end_) loc w = (Returns [], w')).
Proof.
  do 6 (split; [intros; split; reflexivity |]).
  intros start d loc w e p w'.
  destruct (new_run (ORange (RangeIterator_ctor start e)) w) as (Hnew & _ & Hp).
  fold p in Hnew, Hp. fold w' in Hnew, Hp.
  assert (Hiter : Value.iter (VRange start e) loc w = (Returns (VIterator p), w')).
  { unfold Value.iter. now rewrite (bind_returns _ _ _ _ _ Hnew). }
  assert (Hnext : Iterator.has_next p w' = (Returns false, w')).
  { rewrite (range_has_next_run p _ w' Hp). cbn [current end_ RangeIterator_ctor].
    destruct (Z.ltb_spec start e); [subst e; lia | reflexivity]. }
  split; [exact Hiter |]. split; [exact Hnext |].
  intros fuel. unfold iterate. rewrite (bind_returns _ _ _ _ _ Hiter).
  cbn [drain]. now rewrite (bind_returns _ _ _ _ _ Hnext).
Qed.

(** *** Traversing a Range *)

Lemma range_iterator_eta (it : RangeIterator) :
  mkRangeIterator (start it) (end_ it) (current it) = it.
Proof. now destruct it. Qed.

(** A traversal started anywhere at or below the end yields the integers
    from the cursor up to the end, and leaves the cursor on the end. *)
Lemma drain_range (p : iter_ptr) (k : nat) :
  forall (fuel : nat) (it : RangeIterator) (w : World),
    heap w !! p = Some (ORange it) ->
    Z.to_nat (end_ it - current it) = k ->
    Int.i64_min <= current it -> end_ it <= Int.i64_max ->
    (k < fuel)%nat ->
    drain fuel p w
      = (Returns (VInteger <$> seqZ (current it) (end_ it - current it)),
         set_heap
           (<[p := ORange (mkRangeIterator (start it) (end_ it)
                             (Z.max (current it) (end_ it)))]> (heap w))
           w).
Proof.
  induction k as [|k IH]; intros fuel it w H Hk Hlo Hhi Hfuel;
    (destruct fuel as [|fuel]; [lia |]); cbn [drain];
    rewrite (bind_returns _ _ _ _ _ (range_has_next_run p it w H)).
  - destruct (Z.ltb_spec (current it) (end_ it)) as [Hlt|Hge]; [lia |].
    rewrite seqZ_nil by lia. rewrite Z.max_l by lia.
    rewrite range_iterator_eta, (insert_id _ _ _ H), set_heap_same.
    reflexivity.
  - destruct (Z.ltb_spec (current it) (end_ it)) as [Hlt|Hge]; [| lia].
    rewrite (bind_returns _ _ _ _ _ (range_next_run p it w H)).
    rewrite wrap64_id by int_lia.
    set (it1 := mkRangeIterator (start it) (end_ it) (current it + 1)).
    set (w1 := set_heap (<[p := ORange it1]> (heap w)) w).
    assert (H1 : heap w1 !! p = Some (ORange it1)) by apply lookup_insert_eq.
    rewrite (bind_returns _ _ _ _ _
               (IH fuel it1 w1 H1 ltac:(cbn; lia) ltac:(cbn; lia) Hhi ltac:(lia))).
    unfold ret. f_equal.
    + rewrite (seqZ_cons (current it)) by lia. rewrite fmap_cons.
      cbn [current end_ it1].
      replace (Z.succ (current it)) with (current it + 1) by lia.
      replace (Z.pred (end_ it - current it)) with (end_ it - (current it + 1)) by lia.
      reflexivity.
    + unfold w1, set_heap. cbn [heap cout cerr start end_ current it1].
      rewrite insert_insert_eq.
      replace ((current it + 1) `max` end_ it) with (current it `max` end_ it) by lia.
      reflexivity.
Qed.

(** *** Traversing a String *)

Lemma chars_length (s : string) : length (chars s) = String.length s.
Proof. induction s as [|c s IH]; cbn; congruence. Qed.

Lemma chars_lookup (s : string) :
  forall c : nat, (c < String.length s)%nat -> chars s !! c = Some (substring c 1 s).
Proof.
  induction s as [|a s IH]; intros c Hc; cbn in Hc; [lia |].
  destruct c as [|c].
  - cbn. now destruct s.
  - cbn. apply IH. lia.
Qed.

Lemma to_size_t_small (z : Z) : 0 <= z < 2 ^ 64 -> Int.to_size_t z = z.
Proof. intros Hz. unfold Int.to_size_t. now apply Z.mod_small. Qed.

Section StringTraversal.

(** [span] is the number of cursor positions an [int] can take without
    wrapping, as a natural number; it is never computed. *)
Variables (p : iter_ptr) (s : string) (span : nat).
Hypothesis span_int : Z.of_nat span = 2 ^ 31.
Hypothesis size_fits : Z.of_nat (String.length s) < 2 ^ 64 - 2 ^ 31.

Lemma cursor_below_span (c : nat) :
  (c < span)%nat ->
  Int.wrap32 (Z.of_nat c) = Z.of_nat c /\ Int.to_size_t (Z.of_nat c) = Z.of_nat c.
Proof.
  intros Hc. split.
  - apply wrap32_id. unfold Int.in_i32, Int.i32_max. lia.
  - apply to_size_t_small. lia.
Qed.

(** After [min (size, span)] steps [has_next] answers [false]: either the
    cursor stands on the size, or it has wrapped to a negative [int],
    which as a [size_t] exceeds every size. *)
Lemma cursor_at_stop :
  (Int.to_size_t (Int.wrap32 (Z.of_nat (String.length s `min` span)))
     <? Z.of_nat (String.length s)) = false.
Proof.
  apply Z.ltb_ge.
  destruct (Nat.lt_ge_cases (String.length s) span) as [Hshort|Hlong].
  - rewrite Nat.min_l by lia.
    destruct (cursor_below_span _ Hshort) as [-> ->]. lia.
  - rewrite Nat.min_r by lia. rewrite span_int.
    change (Int.to_size_t (Int.wrap32 (2 ^ 31))) with (2 ^ 64 - 2 ^ 31). lia.
Qed.

Lemma drain_string (r : nat) :
  forall (c fuel : nat) (w : World),
    (c + r = String.length s `min` span)%nat ->
    heap w !! p = Some (OString (mkStringIterator s (Int.wrap32 (Z.of_nat c)))) ->
    (r < fuel)%nat ->
    drain fuel p w
      = (Returns (VString <$> drop c (take span (chars s))),
         set_heap
           (<[p := OString (mkStringIterator s
                              (Int.wrap32 (Z.of_nat (String.length s `min` span))))]>
              (heap w))
           w).
Proof.
  induction r as [|r IH]; intros c fuel w Hc H Hfuel;
    (destruct fuel as [|fuel]; [lia |]); cbn [drain];
    rewrite (bind_returns _ _ _ _ _ (string_has_next_run p _ w H));
    cbn [index str].
  - rewrite Nat.add_0_r in Hc. subst c. rewrite cursor_at_stop.
    rewrite drop_ge by (rewrite length_take, chars_length; lia).
    rewrite (insert_id _ _ _ H), set_heap_same. reflexivity.
  - assert (Hspan : (c < span)%nat) by lia.
    assert (Hsize : (c < String.length s)%nat) by lia.
    destruct (cursor_below_span c Hspan) as [Hwrap Hconv].
    rewrite Hwrap in H |- *. rewrite Hconv.
    destruct (Z.ltb_spec (Z.of_nat c) (Z.of_nat (String.length s))); [| lia].
    rewrite (bind_returns _ _ _ _ _
               (string_next_run p _ w H ltac:(cbn [index str]; lia))).
    cbn [index str]. rewrite Hconv, Nat2Z.id.
    replace (Z.of_nat c + 1) with (Z.of_nat (S c)) by lia.
    set (w1 := set_heap _ w).
    assert (H1 : heap w1 !! p
                 = Some (OString (mkStringIterator s (Int.wrap32 (Z.of_nat (S c))))))
      by apply lookup_insert_eq.
    rewrite (bind_returns _ _ _ _ _ (IH (S c) fuel w1 ltac:(lia) H1 ltac:(lia))).
    unfold ret. f_equal.
    + rewrite (drop_S (take span (chars s)) (substring c 1 s) c).
      * now rewrite fmap_cons.
      * rewrite lookup_take_lt by assumption. now apply chars_lookup.
    + unfold w1, set_heap. cbn [heap cout cerr]. now rewrite insert_insert_eq.
Qed.

End StringTraversal.

Lemma drain_exhausted (p : iter_ptr) (w : World) :
  Iterator.has_next p w = (Returns false, w) ->
  forall fuel : nat, drain (S fuel) p w = (Returns [], w).
Proof.
  intros H fuel. cbn [drain]. now rewrite (bind_returns _ _ _ _ _ H).
Qed.

(** [iter] on a String followed by a traversal, for a string of any size
    the library can hold: the first [span] characters are yielded, one
    Value each, and the iterator is then exhausted. *)
Lemma iterate_string_upto_span
  (s : string) (span fuel : nat) (loc : string) (w : World) :
  Z.of_nat span = 2 ^ 31 ->
  Z.of_nat (String.length s) < 2 ^ 64 - 2 ^ 31 ->
  (String.length s `min` span < fuel)%nat ->
  let p := fresh (dom (heap w)) in
  let w' := set_heap
              (<[p := OString (mkStringIterator s
                                 (Int.wrap32 (Z.of_nat (String.length s `min` span))))]>
                 (heap w)) w in
  Value.iter (VString s) loc w
    = (Returns (VIterator p), set_heap (<[p := OString (StringIterator_ctor s)]> (heap w)) w)
  /\ iterate fuel (VString s) loc w = (Returns (VString <$> take span (chars s)), w')
  /\ Iterator.has_next p w' = (Returns false, w').
Proof.
  intros Hspan Hsize Hfuel p w'.
  destruct (new_run (OString (StringIterator_ctor s)) w) as (Hnew & _ & Hp).
  fold p in Hnew, Hp.
  set (w0 := set_heap (<[p := OString (StringIterator_ctor s)]> (heap w)) w) in *.
  assert (Hiter : Value.iter (VString s) loc w = (Returns (VIterator p), w0)).
  { unfold Value.iter. now rewrite (bind_returns _ _ _ _ _ Hnew). }
  split; [exact Hiter |]. split.
  - unfold iterate. rewrite (bind_returns _ _ _ _ _ Hiter).
    rewrite (drain_string p s span Hspan Hsize (String.length s `min` span) 0 fuel w0
               eq_refl Hp Hfuel).
    rewrite drop_0. f_equal.
    unfold w', w0, set_heap. cbn [heap cout cerr]. now rewrite insert_insert_eq.
  - assert (Hp' : heap w' !! p
                  = Some (OString (mkStringIterator s
                            (Int.wrap32 (Z.of_nat (String.length s `min` span))))))
      by apply lookup_insert_eq.
    rewrite (string_has_next_run p _ w' Hp'). cbn [index str].
    now rewrite (cursor_at_stop s span Hspan Hsize).
Qed.

(** Strings whose size fits an [int]: every one-character substring, left
    to right, exactly once; afterwards the iterator stays exhausted. *)
Lemma iterate_string (s : string) (fuel : nat) (loc : string) (w : World) :
  Z.of_nat (String.length s) <= Int.i32_max ->
  (String.length s < fuel)%nat ->
  let p := fresh (dom (heap w)) in
  let w' := set_heap
              (<[p := OString (mkStringIterator s (Z.of_nat (String.length s)))]> (heap w))
              w in
  iterate fuel (VString s) loc w = (Returns (VString <$> chars s), w')
  /\ Iterator.has_next p w' = (Returns false, w')
  /\ forall fuel' : nat, drain (S fuel') p w' = (Returns [], w').
Proof.
  intros Hsize Hfuel p w'.
  pose proof (Z2Nat.id (2 ^ 31) ltac:(lia)) as Hspan.
  set (span := Z.to_nat (2 ^ 31)) in Hspan. clearbody span.
  assert (Hmin : (String.length s `min` span = String.length s)%nat) by int_lia.
  destruct (iterate_string_upto_span s span fuel loc w Hspan) as (_ & Hrun & Hstop);
    [int_lia | lia |].
  rewrite Hmin in Hrun, Hstop.
  rewrite wrap32_id in Hrun, Hstop by int_lia.
  rewrite take_ge in Hrun by (rewrite chars_length; lia).
  split; [exact Hrun |]. split; [exact Hstop |].
  now apply drain_exhausted.
Qed.

(** Ranges: the integers of [start, end) in increasing order; afterwards
    the iterator stays exhausted. *)
Lemma iterate_range (a b : Z) (fuel : nat) (loc : string) (w : World) :
  Int.in_i64 a -> Int.in_i64 b ->
  (Z.to_nat (b - a) < fuel)%nat ->
  let p := fresh (dom (heap w)) in
  let w' := set_heap (<[p := ORange (mkRangeIterator a b (a `max` b))]> (heap w)) w in
  iterate fuel (VRange a b) loc w = (Returns (VInteger <$> seqZ a (b - a)), w')
  /\ Iterator.has_next p w' = (Returns false, w')
  /\ forall fuel' : nat, drain (S fuel') p w' = (Returns [], w').
Proof.
  intros Ha Hb Hfuel p w'.
  destruct (new_run (ORange (RangeIterator_ctor a b)) w) as (Hnew & _ & Hp).
  fold p in Hnew, Hp.
  set (w0 := set_heap (<[p := ORange (RangeIterator_ctor a b)]> (heap w)) w) in *.
  assert (Hrun : iterate fuel (VRange a b) loc w
                 = (Returns (VInteger <$> seqZ a (b - a)), w')).
  { assert (Hiter : Value.iter (VRange a b) loc w = (Returns (VIterator p), w0)).
    { unfold Value.iter. now rewrite (bind_returns _ _ _ _ _ Hnew). }
    unfold iterate. rewrite (bind_returns _ _ _ _ _ Hiter).
    rewrite (drain_range p (Z.to_nat (b - a)) fuel (RangeIterator_ctor a b) w0 Hp
               eq_refl ltac:(cbn; int_lia) ltac:(cbn; int_lia) Hfuel).
    cbn [start end_ current RangeIterator_ctor]. f_equal.
    unfold w', w0, set_heap. cbn [heap cout cerr]. now rewrite insert_insert_eq. }
  assert (Hstop : Iterator.has_next p w' = (Returns false, w')).
  { assert (Hp' : heap w' !! p = Some (ORange (mkRangeIterator a b (a `max` b))))
      by apply lookup_insert_eq.
    rewrite (range_has_next_run p _ w' Hp'). cbn [current end_].
    destruct (Z.ltb_spec (a `max` b) b); [lia | reflexivity]. }
  split; [exact Hrun |]. split; [exact Hstop |]. now apply drain_exhausted.
Qed.

Example iterate_ab :
  fst (iterate 3 (VString "ab") "t" empty_world) = Returns [VString "a"; VString "b"].
Proof. reflexivity. Qed.

Example iterate_0_3 :
  fst (iterate 4 (VRange 0 3) "t" empty_world)
    = Returns [VInteger 0; VInteger 1; VInteger 2].
Proof. reflexivity. Qed.

Lemma filled_length (n : nat) (c : ascii) : String.length (filled n c) = n.
Proof. induction n as [|n IH]; cbn; congruence. Qed.

(** C6. The String iterator keeps its cursor in an [int].  On a String of
    2^31 + 1 characters the traversal, given any budget beyond 2^31
    steps, returns after the first 2^31 characters: the cursor wraps,
    [has_next] turns [false], and the last character of the source is
    never yielded. *)
Theorem string_iterator_stops_at_int_limit (extra : nat) :
  let s := filled (Z.to_nat (2 ^ 31 + 1)) "a" in
  let fuel := S (Z.to_nat (2 ^ 31) + extra) in
  exists (p : iter_ptr) (w0 w' : World) (vs : list Value),
    Value.iter (VString s) "main.sp:1" empty_world = (Returns (VIterator p), w0)
    /\ iterate fuel (VString s) "main.sp:1" empty_world = (Returns vs, w')
    /\ vs = VString <$> take (Z.to_nat (2 ^ 31)) (chars s)
    /\ Iterator.has_next p w' = (Returns false, w')
    /\ Z.of_nat (length vs) = 2 ^ 31
    /\ Z.of_nat (length (chars s)) = 2 ^ 31 + 1.
Proof.
  intros s.
  assert (Hlen : Z.of_nat (String.length s) = 2 ^ 31 + 1).
  { unfold s. rewrite filled_length. apply Z2Nat.id. lia. }
  clearbody s.
  pose proof (Z2Nat.id (2 ^ 31) ltac:(lia)) as Hspan.
  set (span := Z.to_nat (2 ^ 31)) in *. clearbody span. intros fuel.
  destruct (iterate_string_upto_span s span fuel "main.sp:1" empty_world Hspan)
    as (Hiter & Hrun & Hstop); [lia | unfold fuel; lia |].
  eexists _, _, _, _.
  split; [exact Hiter |]. split; [exact Hrun |]. split; [reflexivity |].
  split; [exact Hstop |].
  rewrite length_fmap, length_take, !chars_length. lia.
Qed.

(** * Further properties of the code *)

(** ** Integer arithmetic modulo 2^64 ([Value::add], [Value::sub],
       [Value::mul], [Value::div]) *)

Lemma wrap64_unfold (z : Z) :
  Int.wrap64 z = z - 2 ^ 64 * ((z + 2 ^ 63) / 2 ^ 64).
Proof.
  unfold Int.wrap64, Int.wrap. change (2 ^ (64 - 1)) with (2 ^ 63).
  rewrite Z.mod_eq by lia. lia.
Qed.

Lemma wrap64_range (z : Z) : Int.in_i64 (Int.wrap64 z).
Proof.
  unfold Int.in_i64, Int.i64_min, Int.i64_max, Int.wrap64, Int.wrap.
  pose proof (Z.mod_pos_bound (z + 2 ^ (64 - 1)) (2 ^ 64)). lia.
Qed.

(** Integers that differ by a multiple of 2^64 reduce to the same [i64]. *)
Lemma wrap64_congr (x y k : Z) : x = y + k * 2 ^ 64 -> Int.wrap64 x = Int.wrap64 y.
Proof.
  intros ->. unfold Int.wrap64, Int.wrap.
  replace (y + k * 2 ^ 64 + 2 ^ (64 - 1)) with (y + 2 ^ (64 - 1) + k * 2 ^ 64) by lia.
  now rewrite Z_mod_plus_full.
Qed.

Lemma wrap64_add_l (x y : Z) : Int.wrap64 (Int.wrap64 x + y) = Int.wrap64 (x + y).
Proof.
  apply (wrap64_congr _ _ (- ((x + 2 ^ 63) / 2 ^ 64))).
  rewrite wrap64_unfold. lia.
Qed.

Lemma wrap64_add_r (x y : Z) : Int.wrap64 (x + Int.wrap64 y) = Int.wrap64 (x + y).
Proof. rewrite (Z.add_comm x), wrap64_add_l. f_equal. lia. Qed.

Lemma mul_loop_world (fuel : nat) :
  forall (i n : Z) (s result : string) (w : World),
    snd (Value.mul_loop fuel i n s result w) = w.
Proof.
  induction fuel as [|fuel IH]; intros i n s result w; rewrite mul_loop_eq;
    destruct (i <? n); try reflexivity.
  destruct (i =? Int.i32_max); [reflexivity | apply IH].
Qed.

(** X1. Integer addition wraps modulo 2^64, and so it stays associative
    and commutative on every pair of payloads, across overflow too: the
    two ways of bracketing a sum of three Integers return the same
    Integer. *)
Theorem integer_add_associates (a b c : Z) (loc : string) (w : World) :
  (t <- Value.add (VInteger a) (VInteger b) loc ;; Value.add t (VInteger c) loc) w
    = (t <- Value.add (VInteger b) (VInteger c) loc ;; Value.add (VInteger a) t loc) w
  /\ Value.add (VInteger a) (VInteger b) loc w
     = Value.add (VInteger b) (VInteger a) loc w.
Proof.
  assert (Hassoc : Int.wrap64 (Int.wrap64 (a + b) + c)
                   = Int.wrap64 (a + Int.wrap64 (b + c))).
  { rewrite wrap64_add_l, wrap64_add_r. f_equal. lia. }
  split.
  - unfold Value.add, Value.from_int, bind, ret. now rewrite Hassoc.
  - unfold Value.add. now rewrite (Z.add_comm a b).
Qed.

(** X2. Subtracting what was added gives the first operand back, even
    when the sum in between left the 64-bit range and wrapped. *)
Theorem integer_sub_undoes_add (a b : Z) (loc : string) (w : World) :
  Int.in_i64 a ->
  (t <- Value.add (VInteger a) (VInteger b) loc ;; Value.sub t (VInteger b) loc) w
    = (Returns (VInteger a), w).
Proof.
  intros Ha.
  assert (Hback : Int.wrap64 (Int.wrap64 (a + b) - b) = a).
  { rewrite <- (wrap64_id a Ha) at 2.
    apply (wrap64_congr _ _ (- ((a + b + 2 ^ 63) / 2 ^ 64))).
    rewrite wrap64_unfold. lia. }
  unfold Value.add, Value.sub, Value.from_int, bind, ret. now rewrite Hback.
Qed.

Lemma integer_sub_undoes_add_witness :
  Int.in_i64 Int.i64_max
  /\ (t <- Value.add (VInteger Int.i64_max) (VInteger 1) "main.sp:2" ;;
      Value.sub t (VInteger 1) "main.sp:2") empty_world
     = (Returns (VInteger Int.i64_max), empty_world).
Proof.
  assert (H : Int.in_i64 Int.i64_max) by int_lia.
  split; [exact H |].
  exact (integer_sub_undoes_add Int.i64_max 1 "main.sp:2" empty_world H).
Defined.

(** X3. The 64-bit range is an invariant of Integer arithmetic: whenever
    one of the four operations returns on two Integers that hold 64-bit
    payloads, the result is an Integer whose payload again fits 64 bits,
    and the world is as before. *)
Theorem integer_results_stay_in_range
  (op : BinOp) (fuel : nat) (a b : Z) (loc : string) (w w' : World) (v : Value) :
  Int.in_i64 a -> Int.in_i64 b ->
  apply_op op fuel (VInteger a) (VInteger b) loc w = (Returns v, w') ->
  exists n : Z, v = VInteger n /\ Int.in_i64 n /\ w' = w.
Proof.
  intros Ha Hb Hrun.
  destruct op; cbn in Hrun;
    try (injection Hrun as <- <-; eexists; split; [reflexivity |];
         split; [apply wrap64_range | reflexivity]).
  unfold Value.div, bind, Value.i64_div in Hrun.
  destruct (Z.eqb_spec b 0) as [|Hnz]; [discriminate Hrun |].
  destruct (Z.eqb_spec a Int.i64_min) as [Hmin|Hmin];
    destruct (Z.eqb_spec b (-1)) as [Hm1|Hm1]; cbn in Hrun;
    try discriminate Hrun;
    injection Hrun as <- <-; eexists; (split; [reflexivity |]);
    (split; [| reflexivity]); apply quot_in_i64; tauto.
Qed.

Lemma integer_results_stay_in_range_witness :
  Int.in_i64 (2 ^ 62) /\ Int.in_i64 4
  /\ apply_op Mul 0 (VInteger (2 ^ 62)) (VInteger 4) "main.sp:3" empty_world
     = (Returns (VInteger 0), empty_world)
  /\ exists n : Z, VInteger 0 = VInteger n /\ Int.in_i64 n /\ empty_world = empty_world.
Proof.
  assert (H1 : Int.in_i64 (2 ^ 62)) by int_lia.
  assert (H2 : Int.in_i64 4) by int_lia.
  split; [exact H1 |]. split; [exact H2 |]. split; [reflexivity |].
  exact (integer_results_stay_in_range Mul 0 (2 ^ 62) 4 "main.sp:3"
           empty_world empty_world (VInteger 0) H1 H2 eq_refl).
Defined.

(** X5. An arithmetic operation that returns hands back a Value of the
    kind of its left operand, except that an Integer meeting a Float gives
    a Float; so the result is always an Integer, a Float or a String, and
    no operation writes to a stream or touches an iterator. *)
Theorem arithmetic_result_kind
  (op : BinOp) (fuel : nat) (x y : Value) (loc : string) (w w' : World) (v : Value) :
  apply_op op fuel x y loc w = (Returns v, w') ->
  w' = w
  /\ kind v = match kind x, kind y with
              | Integer, Float => Float
              | k, _ => k
              end.
Proof.
  intros Hrun.
  destruct op, x, y; cbn [apply_op] in Hrun;
    unfold Value.add, Value.sub, Value.mul, Value.div in Hrun;
    try (rewrite error_run in Hrun by reflexivity; discriminate Hrun);
    try (injection Hrun as <- <-; split; reflexivity).
  - (* String * Integer *)
    unfold bind in Hrun.
    pose proof (mul_loop_world fuel 0 as_int as_string "" w) as Hw.
    destruct (Value.mul_loop fuel 0 as_int as_string "" w) as [[r| | | | |] w1];
      try discriminate Hrun.
    cbn in Hw. subst w1. injection Hrun as <- <-. split; reflexivity.
  - (* Integer / Integer *)
    unfold bind, Value.i64_div in Hrun.
    destruct (as_int0 =? 0); [discriminate Hrun |].
    destruct ((as_int =? Int.i64_min) && (as_int0 =? -1)); [discriminate Hrun |].
    injection Hrun as <- <-. split; reflexivity.
Qed.

Lemma arithmetic_result_kind_witness :
  apply_op Add 0 (VInteger 2) (VFloat 3) "main.sp:4" empty_world
    = (Returns (VFloat 5), empty_world)
  /\ (empty_world = empty_world
      /\ kind (VFloat 5) = match kind (VInteger 2), kind (VFloat 3) with
                           | Integer, Float => Float
                           | k, _ => k
                           end).
Proof.
  split; [reflexivity |].
  exact (arithmetic_result_kind Add 0 (VInteger 2) (VFloat 3) "main.sp:4"
           empty_world empty_world (VFloat 5) eq_refl).
Defined.

(** ** Strings under [+] and [*] ([Value::add], [Value::mul]) *)

Lemma length_append (a b : string) :
  String.length (a +:+ b) = (String.length a + String.length b)%nat.
Proof.
  induction a as [|ch a IH]; [reflexivity |].
  change (S (String.length (a +:+ b)) = S (String.length a + String.length b)).
  now rewrite IH.
Qed.

Lemma append_times_acc (n : nat) (s : string) :
  forall acc : string, append_times n s acc = acc +:+ append_times n s "".
Proof.
  induction n as [|n IH]; intros acc; cbn [append_times].
  - now rewrite append_empty_r.
  - rewrite (IH (acc +:+ s)), (IH ("" +:+ s)).
    change ("" +:+ s) with s. now rewrite append_assoc.
Qed.

Lemma append_times_add (n m : nat) (s : string) :
  forall acc : string,
    append_times (n + m) s acc = append_times m s (append_times n s acc).
Proof.
  induction n as [|n IH]; intros acc; cbn [append_times Nat.add];
    [reflexivity | apply IH].
Qed.

Lemma append_times_length (n : nat) (s : string) :
  forall acc : string,
    String.length (append_times n s acc)
    = (String.length acc + n * String.length s)%nat.
Proof.
  induction n as [|n IH]; intros acc; cbn [append_times].
  - lia.
  - rewrite IH, length_append. lia.
Qed.

(** X6. For every count an [int] can hold, String times Integer returns
    the string appended that many times to the empty string; the result
    is [max(0, n)] times as long as the string. *)
Theorem string_repetition_length
  (fuel : nat) (s : string) (n : Z) (loc : string) (w : World) :
  n <= Int.i32_max -> (Z.to_nat n <= fuel)%nat ->
  exists r : string,
    Value.mul fuel (VString s) (VInteger n) loc w = (Returns (VString r), w)
    /\ r = append_times (Z.to_nat n) s ""
    /\ Z.of_nat (String.length r) = Z.max 0 n * Z.of_nat (String.length s).
Proof.
  intros Hn Hfuel. eexists. split; [now apply mul_string_repeats |].
  split; [reflexivity |]. rewrite append_times_length. cbn [String.length]. nia.
Qed.

Lemma string_repetition_length_witness :
  3 <= Int.i32_max /\ (Z.to_nat 3 <= 3)%nat
  /\ exists r : string,
       Value.mul 3 (VString "ab") (VInteger 3) "main.sp:5" empty_world
         = (Returns (VString r), empty_world)
       /\ r = append_times (Z.to_nat 3) "ab" ""
       /\ Z.of_nat (String.length r) = Z.max 0 3 * Z.of_nat (String.length "ab").
Proof.
  assert (H1 : 3 <= Int.i32_max) by int_lia.
  assert (H2 : (Z.to_nat 3 <= 3)%nat) by (cbn; lia).
  split; [exact H1 |]. split; [exact H2 |].
  exact (string_repetition_length 3 "ab" 3 "main.sp:5" empty_world H1 H2).
Defined.

(** X7. Repetition distributes over the sum of two counts: for counts
    [n, m >= 0] whose sum an [int] can hold, repeating a string [n + m]
    times returns what adding the [n]-fold to the [m]-fold repetition
    returns. *)
Theorem string_repetition_splits
  (fuel : nat) (s : string) (n m : Z) (loc : string) (w : World) :
  0 <= n -> 0 <= m -> n + m <= Int.i32_max -> (Z.to_nat (n + m) <= fuel)%nat ->
  Value.mul fuel (VString s) (VInteger (n + m)) loc w
  = (x <- Value.mul fuel (VString s) (VInteger n) loc ;;
     y <- Value.mul fuel (VString s) (VInteger m) loc ;;
     Value.add x y loc) w.
Proof.
  intros Hn Hm Hsum Hfuel.
  rewrite (mul_string_repeats fuel s (n + m)) by assumption.
  rewrite (bind_returns _ _ _ _ _ (mul_string_repeats fuel s n loc w
             ltac:(lia) ltac:(lia))).
  rewrite (bind_returns _ _ _ _ _ (mul_string_repeats fuel s m loc w
             ltac:(lia) ltac:(lia))).
  unfold Value.add, Value.from_string, ret.
  rewrite Z2Nat.inj_add by assumption.
  now rewrite append_times_add, (append_times_acc (Z.to_nat m)).
Qed.

Lemma string_repetition_splits_witness :
  0 <= 2 /\ 0 <= 1 /\ 2 + 1 <= Int.i32_max /\ (Z.to_nat (2 + 1) <= 3)%nat
  /\ Value.mul 3 (VString "ab") (VInteger (2 + 1)) "main.sp:6" empty_world
     = (x <- Value.mul 3 (VString "ab") (VInteger 2) "main.sp:6" ;;
        y <- Value.mul 3 (VString "ab") (VInteger 1) "main.sp:6" ;;
        Value.add x y "main.sp:6") empty_world.
Proof.
  assert (H1 : 0 <= 2) by lia. assert (H2 : 0 <= 1) by lia.
  assert (H3 : 2 + 1 <= Int.i32_max) by int_lia.
  assert (H4 : (Z.to_nat (2 + 1) <= 3)%nat) by (cbn; lia).
  repeat (split; [assumption |]).
  exact (string_repetition_splits 3 "ab" 2 1 "main.sp:6" empty_world H1 H2 H3 H4).
Defined.

(** X9. String concatenation under [add] is associative and has the empty
    String as its unit on both sides. *)
Theorem string_add_associates (a b c : string) (loc : string) (w : World) :
  (t <- Value.add (VString a) (VString b) loc ;; Value.add t (VString c) loc) w
    = (t <- Value.add (VString b) (VString c) loc ;; Value.add (VString a) t loc) w
  /\ Value.add (VString "") (VString a) loc w = (Returns (VString a), w)
  /\ Value.add (VString a) (VString "") loc w = (Returns (VString a), w).
Proof.
  unfold Value.add, Value.from_string, bind, ret. split; [| split].
  - now rewrite append_assoc.
  - reflexivity.
  - now rewrite append_empty_r.
Qed.

(** ** What a traversal touches ([StringIterator], [RangeIterator]) *)

Lemma load_none (p : iter_ptr) (w : World) :
  heap w !! p = None -> load p w = (Undefined, w).
Proof. intros H. unfold load. now rewrite H. Qed.

Lemma bind_undefined {A B} (c : M A) (k : A -> M B) (w w' : World) :
  c w = (Undefined, w') -> bind c k w = (Undefined, w').
Proof. intros H. unfold bind. now rewrite H. Qed.

Lemma has_next_world (p : iter_ptr) (w : World) :
  snd (Iterator.has_next p w) = w.
Proof.
  destruct (heap w !! p) as [o|] eqn:Hp.
  - destruct (has_next_run p o w Hp) as [b ->]. reflexivity.
  - unfold Iterator.has_next.
    now rewrite (bind_undefined _ _ _ _ (load_none p w Hp)).
Qed.

(** Whatever [next] returns or throws, it leaves behind the same object
    one step further. *)
Lemma next_world (p : iter_ptr) (w : World) :
  snd (Iterator.next p w)
  = match heap w !! p with
    | Some (OString it) =>
        set_heap
          (<[p := OString (mkStringIterator (str it) (Int.wrap32 (index it + 1)))]>
             (heap w)) w
    | Some (ORange it) =>
        set_heap
          (<[p := ORange (mkRangeIterator (start it) (end_ it)
                            (Int.wrap64 (current it + 1)))]> (heap w)) w
    | None => w
    end.
Proof.
  destruct (heap w !! p) as [[it|it]|] eqn:Hp.
  - unfold Iterator.next.
    rewrite (bind_returns _ _ _ _ _ (load_run p _ w Hp)).
    unfold StringIterator.next.
    rewrite (bind_returns _ _ _ _ _ (string_self_run p it w Hp)).
    unfold bind at 1. unfold store at 1. unfold bind, substr.
    now destruct (Z.of_nat (String.length (str it)) <? Int.to_size_t (index it)).
  - now rewrite (range_next_run p it w Hp).
  - unfold Iterator.next.
    now rewrite (bind_undefined _ _ _ _ (load_none p w Hp)).
Qed.

Lemma cursor_moved_only_refl (p : iter_ptr) (w : World) : cursor_moved_only p w w.
Proof.
  repeat split. destruct (heap w !! p) as [[it|it]|]; cbn; auto.
Qed.

Lemma same_source_trans (a b c : IteratorObject) :
  same_source a b -> same_source b c -> same_source a c.
Proof.
  destruct a, b, c; cbn; try tauto.
  - congruence.
  - intros [-> ->] [-> ->]. now split.
Qed.

Lemma cursor_moved_only_trans (p : iter_ptr) (w1 w2 w3 : World) :
  cursor_moved_only p w1 w2 -> cursor_moved_only p w2 w3 ->
  cursor_moved_only p w1 w3.
Proof.
  intros (Ho1 & He1 & Hq1 & Hp1) (Ho2 & He2 & Hq2 & Hp2).
  split; [congruence |]. split; [congruence |]. split.
  - intros q Hq. rewrite Hq2, Hq1 by assumption. reflexivity.
  - destruct (heap w1 !! p), (heap w2 !! p), (heap w3 !! p);
      try contradiction; try exact I.
    eapply same_source_trans; eassumption.
Qed.

Lemma next_moves_cursor_only (p : iter_ptr) (w : World) :
  cursor_moved_only p w (snd (Iterator.next p w)).
Proof.
  rewrite next_world.
  destruct (heap w !! p) as [[it|it]|] eqn:Hp;
    [| | apply cursor_moved_only_refl];
    (split; [reflexivity |]; split; [reflexivity |]; split;
     [intros q Hq; cbn; now rewrite lookup_insert_ne by congruence |]);
    rewrite Hp; cbn [heap set_heap]; rewrite lookup_insert_eq; cbn; auto.
Qed.

(** X10. A traversal, however it ends, changes nothing but the cursor of
    the iterator it runs on: both streams are as before, every other
    iterator is where it was, and the traversed iterator still holds the
    same string or the same bounds. *)
Theorem traversal_moves_one_cursor (fuel : nat) (p : iter_ptr) (w : World) :
  cursor_moved_only p w (snd (drain fuel p w)).
Proof.
  revert w. induction fuel as [|fuel IH]; intros w; cbn [drain].
  - apply cursor_moved_only_refl.
  - unfold bind at 1. pose proof (has_next_world p w) as Hw.
    destruct (Iterator.has_next p w) as [[[|]| | | | |] w0]; cbn in Hw; subst w0;
      cbn [snd]; try apply cursor_moved_only_refl.
    unfold bind at 1. pose proof (next_moves_cursor_only p w) as Hstep.
    destruct (Iterator.next p w) as [[v| | | | |] w1]; cbn [snd] in Hstep |- *;
      try exact Hstep.
    unfold bind at 1. specialize (IH w1).
    destruct (drain fuel p w1) as [[vs| | | | |] w2]; cbn [snd] in IH |- *;
      eapply cursor_moved_only_trans; eassumption.
Qed.

(** ** Obtaining and exhausting iterators ([Value::iter]) *)

(** X11. When [iter] returns, its result wraps an address that held no
    iterator before; every iterator that existed is still there in the
    state it was in, and nothing was written to either stream. *)
Theorem iter_allocates_fresh
  (v : Value) (loc : string) (w w' : World) (it : Value) :
  Value.iter v loc w = (Returns it, w') ->
  exists p : iter_ptr,
    it = VIterator p
    /\ heap w !! p = None
    /\ is_Some (heap w' !! p)
    /\ (forall q : iter_ptr, q <> p -> heap w' !! q = heap w !! q)
    /\ cout w' = cout w /\ cerr w' = cerr w.
Proof.
  intros Hrun.
  assert (Hnew : forall o : IteratorObject,
             (p <- new o ;; Value.from_iterator p) w = (Returns it, w') ->
             exists p : iter_ptr,
               it = VIterator p /\ heap w !! p = None /\ is_Some (heap w' !! p)
               /\ (forall q : iter_ptr, q <> p -> heap w' !! q = heap w !! q)
               /\ cout w' = cout w /\ cerr w' = cerr w).
  { intros o Ho. destruct (new_run o w) as (Hrun' & Hfree & Hthere).
    rewrite (bind_returns _ _ _ _ _ Hrun') in Ho.
    injection Ho as <- <-. eexists. split; [reflexivity |].
    split; [exact Hfree |]. split; [rewrite Hthere; eauto |].
    split; [| split; reflexivity].
    intros q Hq. cbn. now rewrite lookup_insert_ne by congruence. }
  destruct v; cbn [Value.iter] in Hrun;
    try (rewrite error_run in Hrun by reflexivity; discriminate Hrun);
    eapply Hnew; exact Hrun.
Qed.

Lemma iter_allocates_fresh_witness :
  let w' := set_heap {[ 1%positive := ORange (RangeIterator_ctor 0 3) ]} empty_world in
  Value.iter (VRange 0 3) "main.sp:8" empty_world = (Returns (VIterator 1%positive), w')
  /\ exists p : iter_ptr,
       VIterator 1%positive = VIterator p
       /\ heap empty_world !! p = None
       /\ is_Some (heap w' !! p)
       /\ (forall q : iter_ptr, q <> p -> heap w' !! q = heap empty_world !! q)
       /\ cout w' = cout empty_world /\ cerr w' = cerr empty_world.
Proof.
  cbv zeta. split; [reflexivity |].
  exact (iter_allocates_fresh (VRange 0 3) "main.sp:8" empty_world _ _ eq_refl).
Defined.

Lemma drain_string_all (p : iter_ptr) (s : string) (fuel : nat) (w : World) :
  Z.of_nat (String.length s) <= Int.i32_max ->
  heap w !! p = Some (OString (StringIterator_ctor s)) ->
  (String.length s < fuel)%nat ->
  drain fuel p w
  = (Returns (VString <$> chars s),
     set_heap (<[p := OString (mkStringIterator s (Z.of_nat (String.length s)))]> (heap w)) w).
Proof.
  intros Hsize Hp Hfuel.
  pose proof (Z2Nat.id (2 ^ 31) ltac:(lia)) as Hspan.
  set (span := Z.to_nat (2 ^ 31)) in Hspan. clearbody span.
  assert (Hmin : (String.length s `min` span = String.length s)%nat) by int_lia.
  rewrite (drain_string p s span Hspan ltac:(int_lia) (String.length s `min` span)
             0 fuel w eq_refl Hp ltac:(lia)).
  rewrite Hmin, drop_0, wrap32_id by int_lia.
  now rewrite take_ge by (rewrite chars_length; lia).
Qed.

Lemma chars_join (s : string) : foldr append "" (chars s) = s.
Proof.
  induction s as [|c s IH]; [reflexivity |].
  cbn [chars foldr]. rewrite IH. reflexivity.
Qed.

Lemma add_all_strings (pieces : list string) (loc : string) :
  forall (acc : string) (w : World),
    add_all (VString acc) (VString <$> pieces) loc w
    = (Returns (VString (acc +:+ foldr append "" pieces)), w).
Proof.
  induction pieces as [|piece rest IH]; intros acc w.
  - cbn [fmap list_fmap add_all foldr]. now rewrite append_empty_r.
  - rewrite fmap_cons. cbn [add_all foldr].
    unfold bind, Value.add, Value.from_string, ret.
    rewrite IH. now rewrite append_assoc.
Qed.

(** X12. Traversing a String whose size fits an [int] and adding the
    yielded Values back together, left to right, rebuilds the String: the
    traversal yields one one-character String per byte, and their
    concatenation is the source. *)
Theorem string_traversal_round_trip
  (s : string) (fuel : nat) (loc : string) (w : World) :
  Z.of_nat (String.length s) <= Int.i32_max ->
  (String.length s < fuel)%nat ->
  exists (vs : list Value) (w' : World),
    iterate fuel (VString s) loc w = (Returns vs, w')
    /\ length vs = String.length s
    /\ add_all (VString "") vs loc w' = (Returns (VString s), w').
Proof.
  intros Hsize Hfuel.
  destruct (iterate_string s fuel loc w Hsize Hfuel) as (Hrun & _ & _).
  eexists _, _. split; [exact Hrun |]. split.
  - now rewrite length_fmap, chars_length.
  - rewrite add_all_strings, chars_join. reflexivity.
Qed.

Lemma string_traversal_round_trip_witness :
  Z.of_nat (String.length "abc") <= Int.i32_max
  /\ (String.length "abc" < 4)%nat
  /\ exists (vs : list Value) (w' : World),
       iterate 4 (VString "abc") "main.sp:9" empty_world = (Returns vs, w')
       /\ length vs = String.length "abc"
       /\ add_all (VString "") vs "main.sp:9" w' = (Returns (VString "abc"), w').
Proof.
  assert (H1 : Z.of_nat (String.length "abc") <= Int.i32_max) by (cbn; int_lia).
  assert (H2 : (String.length "abc" < 4)%nat) by (cbn; lia).
  split; [exact H1 |]. split; [exact H2 |].
  exact (string_traversal_round_trip "abc" 4 "main.sp:9" empty_world H1 H2).
Defined.

(** X13. Traversing a Range of 64-bit bounds yields [max(0, end - start)]
    Integers; the one at position [i] is [start + i], so they come in
    increasing order without repetition, and an integer is yielded exactly
    when it lies in [start, end). *)
Theorem range_traversal_values
  (a b : Z) (fuel : nat) (loc : string) (w : World) :
  Int.in_i64 a -> Int.in_i64 b -> (Z.to_nat (b - a) < fuel)%nat ->
  exists (ns : list Z) (w' : World),
    iterate fuel (VRange a b) loc w = (Returns (VInteger <$> ns), w')
    /\ Z.of_nat (length ns) = Z.max 0 (b - a)
    /\ (forall (i : nat) (n : Z), ns !! i = Some n -> n = a + Z.of_nat i)
    /\ (forall n : Z, n ∈ ns <-> a <= n < b)
    /\ NoDup ns.
Proof.
  intros Ha Hb Hfuel.
  destruct (iterate_range a b fuel loc w Ha Hb Hfuel) as (Hrun & _ & _).
  exists (seqZ a (b - a)). eexists. split; [exact Hrun |].
  split; [rewrite length_seqZ; lia |]. split.
  - intros i n Hi. now apply lookup_seqZ in Hi.
  - split; [| apply NoDup_seqZ].
    intros n. rewrite elem_of_seqZ. lia.
Qed.

Lemma range_traversal_values_witness :
  Int.in_i64 (-1) /\ Int.in_i64 2 /\ (Z.to_nat (2 - -1) < 4)%nat
  /\ exists (ns : list Z) (w' : World),
       iterate 4 (VRange (-1) 2) "main.sp:10" empty_world
         = (Returns (VInteger <$> ns), w')
       /\ Z.of_nat (length ns) = Z.max 0 (2 - -1)
       /\ (forall (i : nat) (n : Z), ns !! i = Some n -> n = -1 + Z.of_nat i)
       /\ (forall n : Z, n ∈ ns <-> -1 <= n < 2)
       /\ NoDup ns.
Proof.
  assert (H1 : Int.in_i64 (-1)) by int_lia.
  assert (H2 : Int.in_i64 2) by int_lia.
  assert (H3 : (Z.to_nat (2 - -1) < 4)%nat) by (cbn; lia).
  split; [exact H1 |]. split; [exact H2 |]. split; [exact H3 |].
  exact (range_traversal_values (-1) 2 4 "main.sp:10" empty_world H1 H2 H3).
Defined.

(** X14. Two iterators obtained from the same String are independent:
    exhausting the first leaves the second at the start, and each of the
    two traversals yields every character of the source (for a String
    whose size fits an [int]). *)
Theorem string_iterators_are_independent
  (s : string) (fuel : nat) (loc : string) (w : World) :
  Z.of_nat (String.length s) <= Int.i32_max ->
  (String.length s < fuel)%nat ->
  fst ((a <- Value.iter (VString s) loc ;;
        b <- Value.iter (VString s) loc ;;
        match a, b with
        | VIterator p, VIterator q =>
            xs <- drain fuel p ;; ys <- drain fuel q ;; ret (xs, ys)
        | _, _ => stop (@Undefined)
        end) w)
  = Returns (VString <$> chars s, VString <$> chars s).
Proof.
  intros Hsize Hfuel.
  set (o := OString (StringIterator_ctor s)).
  destruct (new_run o w) as (Hnew1 & Hfree1 & Hthere1).
  set (p := fresh (dom (heap w))) in *.
  set (w1 := set_heap (<[p := o]> (heap w)) w) in *.
  destruct (new_run o w1) as (Hnew2 & Hfree2 & Hthere2).
  set (q := fresh (dom (heap w1))) in *.
  set (w2 := set_heap (<[q := o]> (heap w1)) w1) in *.
  assert (Hpq : q <> p) by (intros ->; congruence).
  assert (Hiter1 : Value.iter (VString s) loc w = (Returns (VIterator p), w1)).
  { unfold Value.iter. fold o. now rewrite (bind_returns _ _ _ _ _ Hnew1). }
  assert (Hiter2 : Value.iter (VString s) loc w1 = (Returns (VIterator q), w2)).
  { unfold Value.iter. fold o. now rewrite (bind_returns _ _ _ _ _ Hnew2). }
  assert (Hp2 : heap w2 !! p = Some o).
  { unfold w2. cbn [heap set_heap]. now rewrite lookup_insert_ne. }
  rewrite (bind_returns _ _ _ _ _ Hiter1), (bind_returns _ _ _ _ _ Hiter2).
  rewrite (bind_returns _ _ _ _ _ (drain_string_all p s fuel w2 Hsize Hp2 Hfuel)).
  set (w3 := set_heap _ w2).
  assert (Hq3 : heap w3 !! q = Some o).
  { unfold w3. cbn [heap set_heap]. rewrite lookup_insert_ne by congruence.
    exact Hthere2. }
  rewrite (bind_returns _ _ _ _ _ (drain_string_all q s fuel w3 Hsize Hq3 Hfuel)).
  reflexivity.
Qed.

Lemma string_iterators_are_independent_witness :
  Z.of_nat (String.length "ab") <= Int.i32_max
  /\ (String.length "ab" < 3)%nat
  /\ fst ((a <- Value.iter (VString "ab") "main.sp:11" ;;
           b <- Value.iter (VString "ab") "main.sp:11" ;;
           match a, b with
           | VIterator p, VIterator q =>
               xs <- drain 3 p ;; ys <- drain 3 q ;; ret (xs, ys)
           | _, _ => stop (@Undefined)
           end) empty_world)
      = Returns (VString <$> chars "ab", VString <$> chars "ab").
Proof.
  assert (H1 : Z.of_nat (String.length "ab") <= Int.i32_max) by (cbn; int_lia).
  assert (H2 : (String.length "ab" < 3)%nat) by (cbn; lia).
  split; [exact H1 |]. split; [exact H2 |].
  exact (string_iterators_are_independent "ab" 3 "main.sp:11" empty_world H1 H2).
Defined.

(** ** [next] without a preceding [has_next] *)

Lemma substring_at_end (s : string) (m : nat) : substring (String.length s) m s = "".
Proof.
  induction s as [|c s IH]; [now destruct m | exact IH].
Qed.

Lemma string_next_throws (p : iter_ptr) (it : StringIterator) (w : World) :
  heap w !! p = Some (OString it) ->
  Z.of_nat (String.length (str it)) < Int.to_size_t (index it) ->
  Iterator.next p w
    = (Thrown,
       set_heap
         (<[p := OString (mkStringIterator (str it) (Int.wrap32 (index it + 1)))]> (heap w))
         w).
Proof.
  intros H Hpos. unfold Iterator.next.
  rewrite (bind_returns _ _ _ _ _ (load_run p _ w H)).
  unfold StringIterator.next.
  rewrite (bind_returns _ _ _ _ _ (string_self_run p it w H)).
  unfold bind at 1. unfold store at 1. unfold bind, substr.
  destruct (Z.ltb_spec (Z.of_nat (String.length (str it))) (Int.to_size_t (index it)));
    [reflexivity | lia].
Qed.

(** X15. [next] on a String iterator does not look at [has_next].  With
    the cursor on the end of the string it returns the empty String and
    moves the cursor past the end; the call after that throws
    [std::out_of_range], and has moved the cursor once more by then. *)
Theorem string_next_past_end (p : iter_ptr) (s : string) (w : World) :
  heap w !! p = Some (OString (mkStringIterator s (Z.of_nat (String.length s)))) ->
  Z.of_nat (String.length s) < Int.i32_max ->
  let size := Z.of_nat (String.length s) in
  let w1 := set_heap (<[p := OString (mkStringIterator s (size + 1))]> (heap w)) w in
  let w2 := set_heap
              (<[p := OString (mkStringIterator s (Int.wrap32 (size + 1 + 1)))]> (heap w))
              w in
  Iterator.has_next p w = (Returns false, w)
  /\ Iterator.next p w = (Returns (VString ""), w1)
  /\ Iterator.next p w1 = (Thrown, w2).
Proof.
  intros Hp Hsize size w1 w2.
  assert (Hconv : Int.to_size_t size = size)
    by (apply to_size_t_small; unfold size; int_lia).
  assert (Hconv1 : Int.to_size_t (size + 1) = size + 1)
    by (apply to_size_t_small; unfold size; int_lia).
  assert (Hwrap : Int.wrap32 (size + 1) = size + 1)
    by (apply wrap32_id; unfold size; int_lia).
  split; [| split].
  - rewrite (string_has_next_run p _ w Hp). cbn [index str]. fold size.
    rewrite Hconv, Z.ltb_irrefl. reflexivity.
  - rewrite (string_next_run p _ w Hp) by (cbn [index str]; fold size; lia).
    cbn [index str]. fold size. rewrite Hconv, Hwrap. unfold size at 1.
    rewrite Nat2Z.id, substring_at_end. reflexivity.
  - assert (Hp1 : heap w1 !! p = Some (OString (mkStringIterator s (size + 1))))
      by apply lookup_insert_eq.
    rewrite (string_next_throws p _ w1 Hp1)
      by (cbn [index str]; fold size; lia).
    cbn [index str]. unfold w2, w1, set_heap. cbn [heap cout cerr].
    now rewrite insert_insert_eq.
Qed.

Lemma string_next_past_end_witness :
  let w := set_heap {[ 1%positive := OString (mkStringIterator "ab" 2) ]} empty_world in
  heap w !! 1%positive
    = Some (OString (mkStringIterator "ab" (Z.of_nat (String.length "ab"))))
  /\ Z.of_nat (String.length "ab") < Int.i32_max
  /\ (let size := Z.of_nat (String.length "ab") in
      let w1 := set_heap (<[1%positive := OString (mkStringIterator "ab" (size + 1))]>
                            (heap w)) w in
      let w2 := set_heap
                  (<[1%positive := OString (mkStringIterator "ab"
                                              (Int.wrap32 (size + 1 + 1)))]> (heap w))
                  w in
      Iterator.has_next 1%positive w = (Returns false, w)
      /\ Iterator.next 1%positive w = (Returns (VString ""), w1)
      /\ Iterator.next 1%positive w1 = (Thrown, w2)).
Proof.
  cbv zeta.
  assert (H2 : Z.of_nat (String.length "ab") < Int.i32_max) by (cbn; int_lia).
  split; [reflexivity |]. split; [exact H2 |].
  exact (string_next_past_end 1%positive "ab"
           (set_heap {[ 1%positive := OString (mkStringIterator "ab" 2) ]} empty_world)
           eq_refl H2).
Defined.

(** X16. [next] on a Range iterator does not look at the end either: on
    an exhausted iterator it returns the cursor, an Integer outside the
    Range, and steps on; [has_next] stays [false]. *)
Theorem range_next_ignores_end (p : iter_ptr) (it : RangeIterator) (w : World) :
  heap w !! p = Some (ORange it) ->
  end_ it <= current it ->
  Int.i64_min <= current it < Int.i64_max ->
  let w1 := set_heap
              (<[p := ORange (mkRangeIterator (start it) (end_ it) (current it + 1))]>
                 (heap w)) w in
  Iterator.has_next p w = (Returns false, w)
  /\ Iterator.next p w = (Returns (VInteger (current it)), w1)
  /\ Iterator.has_next p w1 = (Returns false, w1).
Proof.
  intros Hp Hdone Hrange w1. split; [| split].
  - rewrite (range_has_next_run p it w Hp).
    destruct (Z.ltb_spec (current it) (end_ it)); [lia | reflexivity].
  - rewrite (range_next_run p it w Hp). now rewrite wrap64_id by int_lia.
  - assert (Hp1 : heap w1 !! p
                  = Some (ORange (mkRangeIterator (start it) (end_ it) (current it + 1))))
      by apply lookup_insert_eq.
    rewrite (range_has_next_run p _ w1 Hp1). cbn [current end_].
    destruct (Z.ltb_spec (current it + 1) (end_ it)); [lia | reflexivity].
Qed.

Lemma range_next_ignores_end_witness :
  let it := mkRangeIterator 0 3 3 in
  let w := set_heap {[ 1%positive := ORange it ]} empty_world in
  heap w !! 1%positive = Some (ORange it)
  /\ end_ it <= current it
  /\ Int.i64_min <= current it < Int.i64_max
  /\ (let w1 := set_heap
                  (<[1%positive := ORange (mkRangeIterator (start it) (end_ it)
                                             (current it + 1))]> (heap w)) w in
      Iterator.has_next 1%positive w = (Returns false, w)
      /\ Iterator.next 1%positive w = (Returns (VInteger (current it)), w1)
      /\ Iterator.has_next 1%positive w1 = (Returns false, w1)).
Proof.
  cbv zeta.
  assert (H2 : end_ (mkRangeIterator 0 3 3) <= current (mkRangeIterator 0 3 3))
    by (cbn; lia).
  assert (H3 : Int.i64_min <= current (mkRangeIterator 0 3 3) < Int.i64_max)
    by (cbn; int_lia).
  split; [reflexivity |]. split; [exact H2 |]. split; [exact H3 |].
  exact (range_next_ignores_end 1%positive (mkRangeIterator 0 3 3)
           (set_heap {[ 1%positive := ORange (mkRangeIterator 0 3 3) ]} empty_world)
           eq_refl H2 H3).
Defined.

(** ** Destruction ([Value::~Value]) *)

Lemma delete_iterator_run (p : iter_ptr) (o : IteratorObject) (w : World) :
  heap w !! p = Some o ->
  delete_iterator p w = (Returns tt, set_heap (delete p (heap w)) w).
Proof. intros H. unfold delete_iterator. now rewrite H. Qed.

Lemma delete_iterator_gone (p : iter_ptr) (w : World) :
  heap w !! p = None -> delete_iterator p w = (Undefined, w).
Proof. intros H. unfold delete_iterator. now rewrite H. Qed.

(** X17. Destroying the Value that [iter] returned gives back the world
    [iter] started from: the iterator object is released and nothing else
    has changed. *)
Theorem iter_then_destroy_restores_world
  (v : Value) (loc : string) (w w' : World) (it : Value) :
  Value.iter v loc w = (Returns it, w') ->
  Value_dtor it w' = (Returns tt, w).
Proof.
  intros Hrun.
  assert (Hnew : forall o : IteratorObject,
             (p <- new o ;; Value.from_iterator p) w = (Returns it, w') ->
             Value_dtor it w' = (Returns tt, w)).
  { intros o Ho. destruct (new_run o w) as (Hrun' & Hfree & Hthere).
    rewrite (bind_returns _ _ _ _ _ Hrun') in Ho.
    injection Ho as <- <-. cbn [Value_dtor].
    rewrite (delete_iterator_run _ _ _ Hthere).
    unfold set_heap at 1 2. cbn [heap cout cerr].
    rewrite delete_insert_id by exact Hfree. now destruct w. }
  destruct v; cbn [Value.iter] in Hrun;
    try (rewrite error_run in Hrun by reflexivity; discriminate Hrun);
    eapply Hnew; exact Hrun.
Qed.

Lemma iter_then_destroy_restores_world_witness :
  let w' := set_heap {[ 1%positive := OString (StringIterator_ctor "ab") ]} empty_world in
  Value.iter (VString "ab") "main.sp:12" empty_world
    = (Returns (VIterator 1%positive), w')
  /\ Value_dtor (VIterator 1%positive) w' = (Returns tt, empty_world).
Proof.
  cbv zeta. split; [reflexivity |].
  exact (iter_then_destroy_restores_world (VString "ab") "main.sp:12" empty_world _ _
           eq_refl).
Defined.

(** X18. Destroying an Iterator Value releases its iterator object and no
    other.  The address is dangling from then on: [has_next], [next] and
    a second destruction through a Value that wraps the same address are
    all undefined. *)
Theorem destroyed_iterator_is_gone (p : iter_ptr) (o : IteratorObject) (w : World) :
  heap w !! p = Some o ->
  let w' := set_heap (delete p (heap w)) w in
  Value_dtor (VIterator p) w = (Returns tt, w')
  /\ (forall q : iter_ptr, q <> p -> heap w' !! q = heap w !! q)
  /\ Iterator.has_next p w' = (Undefined, w')
  /\ Iterator.next p w' = (Undefined, w')
  /\ Value_dtor (VIterator p) w' = (Undefined, w').
Proof.
  intros Hp w'.
  assert (Hgone : heap w' !! p = None) by apply lookup_delete_eq.
  split; [exact (delete_iterator_run p o w Hp) |]. split.
  - intros q Hq. cbn. now rewrite lookup_delete_ne by congruence.
  - split; [| split].
    + unfold Iterator.has_next.
      now rewrite (bind_undefined _ _ _ _ (load_none p w' Hgone)).
    + unfold Iterator.next.
      now rewrite (bind_undefined _ _ _ _ (load_none p w' Hgone)).
    + exact (delete_iterator_gone p w' Hgone).
Qed.

Lemma destroyed_iterator_is_gone_witness :
  let o := ORange (mkRangeIterator 0 3 1) in
  let w := set_heap {[ 1%positive := o ]} empty_world in
  heap w !! 1%positive = Some o
  /\ (let w' := set_heap (delete 1%positive (heap w)) w in
      Value_dtor (VIterator 1%positive) w = (Returns tt, w')
      /\ (forall q : iter_ptr, q <> 1%positive -> heap w' !! q = heap w !! q)
      /\ Iterator.has_next 1%positive w' = (Undefined, w')
      /\ Iterator.next 1%positive w' = (Undefined, w')
      /\ Value_dtor (VIterator 1%positive) w' = (Undefined, w')).
Proof.
  cbv zeta. split; [reflexivity |].
  exact (destroyed_iterator_is_gone 1%positive (ORange (mkRangeIterator 0 3 1))
           (set_heap {[ 1%positive := ORange (mkRangeIterator 0 3 1) ]} empty_world)
           eq_refl).
Defined.
